(** * genutils: the composition-and-dispatch framework, embedded in Rocq

    The development follows the Go package [genutils]: the [Builder]
    closures that accumulate a [Cmd], the [register] function that projects
    a [Cmd] into the marker registry, the cobra command built by [Cmd.cmd],
    the top-level handler [Cmd.Run], the help renderer [helpForLevels] and
    the utility [Title].

    Go maps and the registry pointer are reference values, so they live in
    an explicit heap; the external controller-tools engine (registry,
    option resolution, help introspection) is an interface, [Engine]. *)

From stdpp Require Import base gmap strings list fin_maps sets.
From Stdlib Require Import ZArith Lia Ascii.

Local Open Scope string_scope.
Set Warnings "-register-all,-clear-no-such-hyp".

(** ** Go error values *)

(** The error values that reach the top-level handler.  [errors.New] and
    [fmt.Errorf] return pointers, compared by identity ([p]); the package's
    own [noUsageError] is a struct that embeds an [error] interface and is
    compared field by field. *)
Inductive error : Type :=
  | errorString (p : positive) (text : string)
  | wrapError (p : positive) (text : string) (inner : error)
  | noUsageError (embedded : option error).

(** [==] on two non-nil [error] interface values: same dynamic type and
    equal dynamic values. *)
Fixpoint error_eqb (a b : error) : bool :=
  match a, b with
  | errorString p _, errorString q _ => bool_decide (p = q)
  | wrapError p _ _, wrapError q _ _ => bool_decide (p = q)
  | noUsageError None, noUsageError None => true
  | noUsageError (Some x), noUsageError (Some y) => error_eqb x y
  | _, _ => false
  end.

(** [errors.Is(err, target)] for non-nil arguments: compare, then follow
    [Unwrap].  Only [wrapError] has an [Unwrap] method; embedding the
    [error] interface in [noUsageError] promotes [Error] alone. *)
Fixpoint errors_Is (err target : error) : bool :=
  error_eqb err target ||
  match err with
  | wrapError _ _ inner => errors_Is inner target
  | _ => false
  end.

(** The value given to [panic], and the outcome of a call that may panic. *)
Inductive PanicValue : Type :=
  | PanicError (e : error)
  | PanicRuntime (msg : string).

Inductive Result (A : Type) : Type :=
  | Ok (a : A)
  | Panic (v : PanicValue).
Arguments Ok {A} a.
Arguments Panic {A} v.

(** ** Plugins and marker definitions *)

Record DefinitionHelp : Type := {
  Category : string;
  Summary : string;
}.

(** The optional [genall.HasHelp] capability: absent, or a [Help] method
    whose result may be nil. *)
Inductive HelpCapability : Type :=
  | NoHelp
  | HasHelp (h : option DefinitionHelp).

Record Generator : Type := {
  gen_type : string;
  gen_help : HelpCapability;
  gen_generate : option error;
}.

Record OutputRule : Type := {
  rule_type : string;
  rule_help : HelpCapability;
}.

Inductive TargetType : Type := DescribesPackage | DescribesType | DescribesField.

(** The [interface{}] argument of [markers.MakeDefinition]. *)
Inductive Plugin : Type :=
  | GeneratorPlugin (g : Generator)
  | OutputRulePlugin (r : OutputRule).

Record MarkerDefinition : Type := {
  Name : string;
  Target : TargetType;
  Output : Plugin;
}.

Global Instance DefinitionHelp_eq_dec : EqDecision DefinitionHelp.
Proof. solve_decision. Defined.
Global Instance HelpCapability_eq_dec : EqDecision HelpCapability.
Proof. solve_decision. Defined.
Global Instance error_eq_dec : EqDecision error.
Proof.
  refine (fix go (a b : error) : Decision (a = b) :=
    match a, b with
    | errorString p s, errorString q t =>
        cast_if_and (decide (p = q)) (decide (s = t))
    | wrapError p s x, wrapError q t y =>
        cast_if_and3 (decide (p = q)) (decide (s = t)) (go x y)
    | noUsageError None, noUsageError None => left _
    | noUsageError (Some x), noUsageError (Some y) => cast_if (go x y)
    | _, _ => right _
    end); abstract congruence.
Defined.
Global Instance Generator_eq_dec : EqDecision Generator.
Proof. solve_decision. Defined.
Global Instance OutputRule_eq_dec : EqDecision OutputRule.
Proof. solve_decision. Defined.
Global Instance TargetType_eq_dec : EqDecision TargetType.
Proof. solve_decision. Defined.
Global Instance Plugin_eq_dec : EqDecision Plugin.
Proof. solve_decision. Defined.
Global Instance MarkerDefinition_eq_dec : EqDecision MarkerDefinition.
Proof. solve_decision. Defined.

(** ** Help introspection data *)

Record MarkerDoc : Type := {
  doc_name : string;
  doc_summary : string;
}.

Record CategoryDoc : Type := {
  cat_Category : string;
  cat_Markers : list MarkerDoc;
}.

Inductive SortGroup : Type := SortByCategory | SortByOption.

(** ** The external engine *)

(** What the package consumes from controller-tools ([markers], [genall],
    [genall/help]).  [marker_names] observes which names a registry knows;
    the laws say that registering adds the definition's name and that
    attaching help adds none. *)
Class Engine : Type := {
  Registry : Type;
  Runtime : Type;
  empty_Registry : Registry;
  MakeDefinition : string → TargetType → Plugin → error + MarkerDefinition;
  Register : Registry → MarkerDefinition → error + Registry;
  AddHelp : Registry → MarkerDefinition → DefinitionHelp → Registry;
  RegisterOptionsMarkers : Registry → error + Registry;
  OutputToDirectory : string → OutputRule;
  OutputToStdout : OutputRule;
  FromOptions : Registry → list string → error + Runtime;
  RegistryFromOptions : Registry → list string → error + Registry;
  runtime_Generators : Runtime → list Generator;
  runtime_Run : Runtime → bool;
  ByCategory : Registry → SortGroup → list CategoryDoc;
  marker_names : Registry → gset string;
  option_markers : gset string;
  MakeDefinition_fields : ∀ n t p d,
    MakeDefinition n t p = inr d → Name d = n ∧ Target d = t ∧ Output d = p;
  marker_names_empty : marker_names empty_Registry = ∅;
  marker_names_Register : ∀ r d r',
    Register r d = inr r' → marker_names r' = {[ Name d ]} ∪ marker_names r;
  marker_names_AddHelp : ∀ r d h,
    marker_names (AddHelp r d h) = marker_names r;
  marker_names_options : ∀ r r',
    RegisterOptionsMarkers r = inr r' →
    marker_names r' = option_markers ∪ marker_names r;
}.

(** The order in which [range] visits a map is chosen by the Go runtime:
    any enumeration of the entries. *)
Class RangeOrder : Type := {
  range : ∀ {V : Type}, gmap string V → list (string * V);
  range_perm : ∀ V (m : gmap string V), range m ≡ₚ map_to_list m;
}.

(** ** The heap: Go maps and the registry behind its pointer *)

Definition loc := positive.

(** A value of a Go map type: nil, or a reference to a map object. *)
Inductive mapref : Type :=
  | nil_map
  | map_at (l : loc).

Global Instance mapref_eq_dec : EqDecision mapref.
Proof. solve_decision. Defined.

Section Framework.
Context `{engine : Engine} `{order : RangeOrder}.

Record Heap : Type := {
  gen_maps : gmap loc (gmap string Generator);
  rule_maps : gmap loc (gmap string OutputRule);
  registries : gmap loc Registry;
}.

Definition empty_heap : Heap :=
  {| gen_maps := ∅; rule_maps := ∅; registries := ∅ |}.

(** A Go computation over the heap that returns or panics. *)
Definition Go (A : Type) : Type := Heap → Result (A * Heap).

Definition ret {A} (a : A) : Go A := fun h => Ok (a, h).

Definition bind {A B} (c : Go A) (k : A → Go B) : Go B :=
  fun h => match c h with
           | Ok (a, h') => k a h'
           | Panic v => Panic v
           end.

Definition panic {A} (v : PanicValue) : Go A := fun _ => Panic v.

Notation "'do' x <- c ; k" := (bind c (fun x => k))
  (at level 10, x pattern, c at level 100, k at level 200).
Notation "c ;; k" := (bind c (fun _ => k))
  (at level 100, k at level 200, right associativity).

(** [make(map[string]genall.Generator)] and map literals allocate. *)
Definition make_gen_map (m : gmap string Generator) : Go mapref :=
  fun h =>
    let l := fresh (dom (gen_maps h)) in
    Ok (map_at l, {| gen_maps := <[l := m]> (gen_maps h);
                     rule_maps := rule_maps h;
                     registries := registries h |}).

Definition make_rule_map (m : gmap string OutputRule) : Go mapref :=
  fun h =>
    let l := fresh (dom (rule_maps h)) in
    Ok (map_at l, {| gen_maps := gen_maps h;
                     rule_maps := <[l := m]> (rule_maps h);
                     registries := registries h |}).

(** [&markers.Registry{}] *)
Definition new_Registry : Go loc :=
  fun h =>
    let l := fresh (dom (registries h)) in
    Ok (l, {| gen_maps := gen_maps h;
              rule_maps := rule_maps h;
              registries := <[l := empty_Registry]> (registries h) |}).

Definition nil_map_write : PanicValue :=
  PanicRuntime "assignment to entry in nil map".
Definition nil_dereference : PanicValue :=
  PanicRuntime "invalid memory address or nil pointer dereference".

(** [m[key] = v]: writes into the map object; on a nil map it panics. *)
Definition gen_map_store (m : mapref) (key : string) (v : Generator) : Go unit :=
  fun h =>
    match m with
    | nil_map => Panic nil_map_write
    | map_at l =>
        match gen_maps h !! l with
        | Some g => Ok (tt, {| gen_maps := <[l := <[key := v]> g]> (gen_maps h);
                               rule_maps := rule_maps h;
                               registries := registries h |})
        | None => Panic nil_dereference
        end
    end.

Definition rule_map_store (m : mapref) (key : string) (v : OutputRule) : Go unit :=
  fun h =>
    match m with
    | nil_map => Panic nil_map_write
    | map_at l =>
        match rule_maps h !! l with
        | Some g => Ok (tt, {| gen_maps := gen_maps h;
                               rule_maps := <[l := <[key := v]> g]> (rule_maps h);
                               registries := registries h |})
        | None => Panic nil_dereference
        end
    end.

(** The entries a read of the map sees; a nil map reads as empty. *)
Definition gens_of (h : Heap) (m : mapref) : gmap string Generator :=
  match m with
  | nil_map => ∅
  | map_at l => default ∅ (gen_maps h !! l)
  end.

Definition rules_of (h : Heap) (m : mapref) : gmap string OutputRule :=
  match m with
  | nil_map => ∅
  | map_at l => default ∅ (rule_maps h !! l)
  end.

Definition read_gens (m : mapref) : Go (gmap string Generator) :=
  fun h => Ok (gens_of h m, h).

Definition read_rules (m : mapref) : Go (gmap string OutputRule) :=
  fun h => Ok (rules_of h m, h).

(** ** Cmd and Builder *)

Record Cmd : Type := {
  name : string;
  description : string;
  helper : string;
  generators : mapref;
  markerRegistry : loc;
  outputRules : mapref;
}.

(** [type Builder func() Cmd] *)
Definition Builder : Type := Go Cmd.

Definition New (name : string) : Builder :=
  do gens <- make_gen_map ∅;
  do reg <- new_Registry;
  do rules <- make_rule_map {[ "dir" := OutputToDirectory "";
                               "stdout" := OutputToStdout ]};
  ret {| name := name; description := ""; helper := "";
         generators := gens; markerRegistry := reg; outputRules := rules |}.

Definition WithDescription (description : string) (b : Builder) : Builder :=
  do g <- b;
  ret {| name := name g; description := description; helper := helper g;
         generators := generators g; markerRegistry := markerRegistry g;
         outputRules := outputRules g |}.

Definition WithHelper (helper : string) (b : Builder) : Builder :=
  do g <- b;
  ret {| name := name g; description := description g; helper := helper;
         generators := generators g; markerRegistry := markerRegistry g;
         outputRules := outputRules g |}.

Definition WithGenerator (key : string) (generator : Generator) (b : Builder) : Builder :=
  do g <- b;
  gen_map_store (generators g) key generator;;
  ret g.

Definition WithGenerators (generators : mapref) (b : Builder) : Builder :=
  do g <- b;
  ret {| name := name g; description := description g; helper := helper g;
         generators := generators; markerRegistry := markerRegistry g;
         outputRules := outputRules g |}.

Definition WithOutputRule (key : string) (outputRule : OutputRule) (b : Builder) : Builder :=
  do g <- b;
  rule_map_store (outputRules g) key outputRule;;
  ret g.

Definition WithOutputRules (outputRules : mapref) (b : Builder) : Builder :=
  do g <- b;
  ret {| name := name g; description := description g; helper := helper g;
         generators := generators g; markerRegistry := markerRegistry g;
         outputRules := outputRules |}.

Definition Apply (b : Builder) : Go Cmd := b.

(** ** Registration *)

(** [markers.Must] *)
Definition Must (r : error + MarkerDefinition) : Go MarkerDefinition :=
  match r with
  | inr def => ret def
  | inl err => panic (PanicError err)
  end.

(** The registry methods, called through the pointer held by the [Cmd]. *)
Definition registry_Register (p : loc) (def : MarkerDefinition) : Go (option error) :=
  fun h =>
    match registries h !! p with
    | None => Panic nil_dereference
    | Some r =>
        match Register r def with
        | inl err => Ok (Some err, h)
        | inr r' => Ok (None, {| gen_maps := gen_maps h;
                                 rule_maps := rule_maps h;
                                 registries := <[p := r']> (registries h) |})
        end
    end.

Definition registry_AddHelp (p : loc) (def : MarkerDefinition) (help : DefinitionHelp)
  : Go unit :=
  fun h =>
    match registries h !! p with
    | None => Panic nil_dereference
    | Some r => Ok (tt, {| gen_maps := gen_maps h;
                           rule_maps := rule_maps h;
                           registries := <[p := AddHelp r def help]> (registries h) |})
    end.

Definition registry_RegisterOptionsMarkers (p : loc) : Go (option error) :=
  fun h =>
    match registries h !! p with
    | None => Panic nil_dereference
    | Some r =>
        match RegisterOptionsMarkers r with
        | inl err => Ok (Some err, h)
        | inr r' => Ok (None, {| gen_maps := gen_maps h;
                                 rule_maps := rule_maps h;
                                 registries := <[p := r']> (registries h) |})
        end
    end.

(** [if err != nil { panic(err) }] *)
Definition panic_on (err : option error) : Go unit :=
  match err with
  | Some e => panic (PanicError e)
  | None => ret tt
  end.

(** [if helpGiver, hasHelp := x.(genall.HasHelp); hasHelp {
       if h := helpGiver.Help(); h != nil { AddHelp(def, h) } }] *)
Definition add_help (p : loc) (def : MarkerDefinition) (cap : HelpCapability) : Go unit :=
  match cap with
  | HasHelp (Some h) => registry_AddHelp p def h
  | HasHelp None => ret tt
  | NoHelp => ret tt
  end.

(** A [for k, v := range m] loop over the entries in the order visited. *)
Fixpoint for_range {V} (entries : list (string * V)) (body : string → V → Go unit)
  : Go unit :=
  match entries with
  | [] => ret tt
  | (k, v) :: rest => body k v;; for_range rest body
  end.

Definition register (g : Cmd) : Go unit :=
  (do gens <- read_gens (generators g);
   for_range (range gens) (fun genName generator =>
     (* make the generator options marker itself *)
     do def <- Must (MakeDefinition genName DescribesPackage (GeneratorPlugin generator));
     do err <- registry_Register (markerRegistry g) def;
     panic_on err;;
     add_help (markerRegistry g) def (gen_help generator);;
     (* make per-generation output rule markers *)
     do rules <- read_rules (outputRules g);
     for_range (range rules) (fun ruleName rule =>
       do ruleMarker <- Must (MakeDefinition ("output:" +:+ genName +:+ ":" +:+ ruleName)
                                DescribesPackage (OutputRulePlugin rule));
       do err <- registry_Register (markerRegistry g) ruleMarker;
       panic_on err;;
       add_help (markerRegistry g) ruleMarker (rule_help rule))));;
  (* make "default output" output rule markers *)
  (do rules <- read_rules (outputRules g);
   for_range (range rules) (fun ruleName rule =>
     do ruleMarker <- Must (MakeDefinition ("output:" +:+ ruleName)
                              DescribesPackage (OutputRulePlugin rule));
     do err <- registry_Register (markerRegistry g) ruleMarker;
     panic_on err;;
     add_help (markerRegistry g) ruleMarker (rule_help rule)));;
  (* add in the common options markers *)
  do err <- registry_RegisterOptionsMarkers (markerRegistry g);
  panic_on err.

(** ** Output streams and the world outside the process *)

Inductive Stream : Type := Stdout | Stderr.

(** What gets written, one constructor per write site. *)
Inductive Block : Type :=
  | VersionText
  | UsageText (use short long example : string)
  | OptionsHeader
  | JsonDocument (helpInfo : list CategoryDoc)
  | MarkersDetails (fullDetail : bool) (category : string) (markers : list MarkerDoc)
  | MarkersSummary (category : string) (markers : list MarkerDoc)
  | ErrorLine (err : error)
  | HintLine (calledAs : string) (args : list string).

Inductive EngineCall : Type :=
  | CallFromOptions (rawOpts : list string)
  | CallRegistryFromOptions (rawOpts : list string)
  | CallRun (runtime : Runtime).

(** The streams hold what was written so far; a stream with a fault
    rejects every write with that error.  [engine_calls] logs the calls
    into the generation engine, [next_error] numbers fresh error values. *)
Record World : Type := {
  stdout : list Block;
  stderr : list Block;
  stdout_fault : option error;
  stderr_fault : option error;
  engine_calls : list EngineCall;
  next_error : positive;
}.

Definition IO (A : Type) : Type := World → A * World.

Definition io_ret {A} (a : A) : IO A := fun w => (a, w).

Definition io_bind {A B} (c : IO A) (k : A → IO B) : IO B :=
  fun w => let '(a, w') := c w in k a w'.

Notation "'io' x <- c ; k" := (io_bind c (fun x => k))
  (at level 10, x pattern, c at level 100, k at level 200).

Definition stream_fault (s : Stream) (w : World) : option error :=
  match s with
  | Stdout => stdout_fault w
  | Stderr => stderr_fault w
  end.

Definition append_to (s : Stream) (b : Block) (w : World) : World :=
  match s with
  | Stdout => {| stdout := stdout w ++ [b]; stderr := stderr w;
                 stdout_fault := stdout_fault w; stderr_fault := stderr_fault w;
                 engine_calls := engine_calls w; next_error := next_error w |}
  | Stderr => {| stdout := stdout w; stderr := stderr w ++ [b];
                 stdout_fault := stdout_fault w; stderr_fault := stderr_fault w;
                 engine_calls := engine_calls w; next_error := next_error w |}
  end.

(** A write through an [io.Writer]: the error, or the block appended. *)
Definition write (s : Stream) (b : Block) : IO (option error) :=
  fun w =>
    match stream_fault s w with
    | Some e => (Some e, w)
    | None => (None, append_to s b w)
    end.

(** A print whose error result the caller drops. *)
Definition print (s : Stream) (b : Block) : IO unit :=
  io x <- write s b; io_ret tt.

Definition engine_call (c : EngineCall) : IO unit :=
  fun w => (tt, {| stdout := stdout w; stderr := stderr w;
                   stdout_fault := stdout_fault w; stderr_fault := stderr_fault w;
                   engine_calls := engine_calls w ++ [c];
                   next_error := next_error w |}).

(** [errors.New(text)]: a fresh pointer. *)
Definition errors_New (text : string) : IO error :=
  fun w => (errorString (next_error w) text,
            {| stdout := stdout w; stderr := stderr w;
               stdout_fault := stdout_fault w; stderr_fault := stderr_fault w;
               engine_calls := engine_calls w;
               next_error := Pos.succ (next_error w) |}).

(** ** Help rendering *)

(** [const ( _ = iota; summaryHelp; detailedHelp; fullHelp; jsonHelp )] *)
Definition summaryHelp : nat := 1.
Definition detailedHelp : nat := 2.
Definition fullHelp : nat := 3.
Definition jsonHelp : nat := 4.

Fixpoint details_loop (errOut : Stream) (fullDetail : bool) (helpInfo : list CategoryDoc)
  : IO (option error) :=
  match helpInfo with
  | [] => io_ret None
  | cat :: rest =>
      if bool_decide (cat_Category cat = "") then details_loop errOut fullDetail rest
      else
        io err <- write errOut (MarkersDetails fullDetail (cat_Category cat) (cat_Markers cat));
        match err with
        | Some e => io_ret (Some e)
        | None => details_loop errOut fullDetail rest
        end
  end.

Fixpoint summary_loop (errOut : Stream) (helpInfo : list CategoryDoc) : IO (option error) :=
  match helpInfo with
  | [] => io_ret None
  | cat :: rest =>
      if bool_decide (cat_Category cat = "") then summary_loop errOut rest
      else
        io err <- write errOut (MarkersSummary (cat_Category cat) (cat_Markers cat));
        match err with
        | Some e => io_ret (Some e)
        | None => summary_loop errOut rest
        end
  end.

Definition helpForLevels (mainOut errOut : Stream) (whichLevel : nat) (reg : Registry)
    (sorter : SortGroup) : IO (option error) :=
  let helpInfo := ByCategory reg sorter in
  if (whichLevel =? jsonHelp)%nat then
    write mainOut (JsonDocument helpInfo)
  else if (whichLevel =? detailedHelp)%nat || (whichLevel =? fullHelp)%nat then
    let fullDetail := (whichLevel =? fullHelp)%nat in
    details_loop errOut fullDetail helpInfo
  else if (whichLevel =? summaryHelp)%nat then
    summary_loop errOut helpInfo
  else io_ret None.

(** ** The cobra command *)

(** The variables the flags are bound to, after cobra parsed the command
    line: [--version], the count of [-h] and the count of [-w]; then the
    remaining arguments and [os.Args[1:]]. *)
Record Invocation : Type := {
  showVersion : bool;
  helpLevel : nat;
  whichLevel : nat;
  rawOpts : list string;
  os_Args : list string;
}.

(** The function installed by [SetUsageFunc]; [helpLevel] is the captured
    variable, returned with its new value. *)
Definition Usage (c : Cmd) (reg : Registry) (helpLevel : nat) : IO (nat * option error) :=
  io err <- write Stderr (UsageText (name c) (description c) (description c) (helper c));
  match err with
  | Some e => io_ret (helpLevel, Some e)
  | None =>
      let helpLevel := if (helpLevel =? 0)%nat then summaryHelp else helpLevel in
      io err <- write Stderr OptionsHeader;
      match err with
      | Some e => io_ret (helpLevel, Some e)
      | None =>
          io err <- helpForLevels Stdout Stderr helpLevel reg SortByOption;
          io_ret (helpLevel, err)
      end
  end.

Definition printMarkerDocs (reg : Registry) (rawOptions : list string) (whichLevel : nat)
  : IO (option error) :=
  io _ <- engine_call (CallRegistryFromOptions rawOptions);
  match RegistryFromOptions reg rawOptions with
  | inl err => io_ret (Some err)
  | inr reg' => helpForLevels Stdout Stderr whichLevel reg' SortByCategory
  end.

(** The [RunE] closure of the command. *)
Definition RunE (c : Cmd) (reg : Registry) (inv : Invocation) : IO (nat * option error) :=
  (* print version if asked for it *)
  if showVersion inv then
    io _ <- print Stdout VersionText;
    io_ret (helpLevel inv, None)
  (* print the help if we asked for it, then bail *)
  else if (0 <? helpLevel inv)%nat then
    Usage c reg (helpLevel inv)
  (* print the marker docs if we asked for them, then bail *)
  else if (0 <? whichLevel inv)%nat then
    io err <- printMarkerDocs reg (rawOpts inv) (whichLevel inv);
    io_ret (helpLevel inv, err)
  else
    (* otherwise, set up the runtime for actually running the generators *)
    io _ <- engine_call (CallFromOptions (rawOpts inv));
    match FromOptions reg (rawOpts inv) with
    | inl err => io_ret (helpLevel inv, Some err)
    | inr runtime =>
        if (length (runtime_Generators runtime) =? 0)%nat then
          io err <- errors_New "no generators specified";
          io_ret (helpLevel inv, Some err)
        else
          io _ <- engine_call (CallRun runtime);
          if runtime_Run runtime then
            (* don't obscure the actual error with a bunch of usage *)
            io err <- errors_New "not all generators ran successfully";
            io_ret (helpLevel inv, Some (noUsageError (Some err)))
          else io_ret (helpLevel inv, None)
    end.

(** [cmd.Execute()]: cobra runs [RunE]; with [SilenceUsage] set it prints
    the error line and nothing else. *)
Definition Execute (c : Cmd) (reg : Registry) (inv : Invocation) : IO (nat * option error) :=
  io r <- RunE c reg inv;
  match r.2 with
  | Some e => io _ <- print Stderr (ErrorLine e); io_ret r
  | None => io_ret r
  end.

(** ** The top-level handler *)

Inductive Termination : Type :=
  | Returned
  | Exited (code : Z)
  | Panicked (v : PanicValue).

(** The exit status the operating system sees. *)
Definition exit_status (t : Termination) : Z :=
  match t with
  | Returned => 0
  | Exited code => code
  | Panicked _ => 2
  end.

(** What follows [cmd.Execute()] in [Run]. *)
Definition handle (c : Cmd) (reg : Registry) (inv : Invocation)
    (r : nat * option error) : IO Termination :=
  match r.2 with
  | None => io_ret Returned
  | Some err =>
      let noUsageErr := noUsageError None in
      let noUsage := errors_Is err noUsageErr in
      io uerr <-
        (if negb noUsage then
           (* print the usage unless we suppressed it *)
           io u <- Usage c reg r.1; io_ret u.2
         else io_ret None);
      match uerr with
      | Some e => io_ret (Panicked (PanicError e))
      | None =>
          io err <- write Stderr (HintLine (name c) (os_Args inv));
          match err with
          | Some _ => io_ret (Exited 1)
          | None => io_ret (Exited 1)
          end
      end
  end.

Definition Run (c : Cmd) (inv : Invocation) (h : Heap) : IO Termination :=
  match register c h with
  | Panic v => io_ret (Panicked v)
  | Ok (_, h') =>
      match registries h' !! markerRegistry c with
      | None => io_ret (Panicked nil_dereference)
      | Some reg =>
          io r <- Execute c reg inv;
          handle c reg inv r
      end
  end.

End Framework.

Arguments Heap {engine}.
Arguments World {engine}.

Notation "'do' x <- c ; k" := (bind c (fun x => k))
  (at level 10, x pattern, c at level 100, k at level 200).
Notation "c ;; k" := (bind c (fun _ => k))
  (at level 100, k at level 200, right associativity).
Notation "'io' x <- c ; k" := (io_bind c (fun x => k))
  (at level 10, x pattern, c at level 100, k at level 200).

(** ** A concrete engine *)

(** The runtime's visiting order, here the map's own enumeration. *)
Global Instance enumeration_order : RangeOrder := {|
  range := fun V (m : gmap string V) => map_to_list m;
  range_perm := fun V m => reflexivity (map_to_list m);
|}.

Module Strict.

(** Modelled from the spec: the marker registry and the option resolution
    of the external annotation engine, which are not part of the
    repository.  The registry holds the definitions by name and the help
    attached to them; the engine's own option markers are the single
    marker ["paths"]. *)
Record registry : Type := {
  defs : gmap string MarkerDefinition;
  helps : gmap string DefinitionHelp;
}.

Definition empty : registry := {| defs := ∅; helps := ∅ |}.

Definition already_registered (n : string) : error :=
  errorString 1 ("marker already registered: " +:+ n).

(** Modelled from the spec: the registry's [Register]; following section
    3, registering a marker name that the registry already holds is an
    error. *)
Definition add (r : registry) (d : MarkerDefinition) : error + registry :=
  if bool_decide (Name d ∈ dom (defs r)) then inl (already_registered (Name d))
  else inr {| defs := <[Name d := d]> (defs r); helps := helps r |}.

Definition add_help (r : registry) (d : MarkerDefinition) (h : DefinitionHelp) : registry :=
  {| defs := defs r; helps := <[Name d := h]> (helps r) |}.

Definition make (n : string) (t : TargetType) (p : Plugin) : error + MarkerDefinition :=
  inr {| Name := n; Target := t; Output := p |}.

Definition to_directory (dir : string) : OutputRule :=
  {| rule_type := "genall.OutputToDirectory";
     rule_help := HasHelp (Some {| Category := ""; Summary := "outputs each artifact to the given directory" |}) |}.

Definition to_stdout : OutputRule :=
  {| rule_type := "genall.outputToStdout";
     rule_help := HasHelp (Some {| Category := ""; Summary := "outputs everything to standard-out" |}) |}.

Definition paths_marker : MarkerDefinition :=
  {| Name := "paths"; Target := DescribesPackage;
     Output := OutputRulePlugin {| rule_type := "genall.InputPaths"; rule_help := NoHelp |} |}.

Definition add_options (r : registry) : error + registry := add r paths_marker.

Record runtime : Type := { selected : list Generator }.

Definition unknown_option (o : string) : error :=
  errorString 2 ("unknown argument " +:+ o).

(** Every raw option must name a registered marker; those that name a
    generator marker select that generator. *)
Fixpoint resolve (r : registry) (opts : list string) : error + list Generator :=
  match opts with
  | [] => inr []
  | o :: rest =>
      match defs r !! o with
      | None => inl (unknown_option o)
      | Some d =>
          match resolve r rest with
          | inl e => inl e
          | inr gs =>
              match Output d with
              | GeneratorPlugin g => inr (g :: gs)
              | OutputRulePlugin _ => inr gs
              end
          end
      end
  end.

Definition from_options (r : registry) (opts : list string) : error + runtime :=
  match resolve r opts with
  | inl e => inl e
  | inr gs => inr {| selected := gs |}
  end.

Definition registry_from_options (r : registry) (opts : list string) : error + registry :=
  match resolve r opts with
  | inl e => inl e
  | inr _ => inr r
  end.

Definition had_errors (rt : runtime) : bool :=
  existsb (fun g => bool_decide (is_Some (gen_generate g))) (selected rt).

Definition doc_of (r : registry) (d : MarkerDefinition) : string * MarkerDoc :=
  match helps r !! Name d with
  | Some h => (Category h, {| doc_name := Name d; doc_summary := Summary h |})
  | None => ("", {| doc_name := Name d; doc_summary := "" |})
  end.

Definition by_category (r : registry) (_ : SortGroup) : list CategoryDoc :=
  let grouped : gmap string (list MarkerDoc) :=
    foldr (fun (nd : string * MarkerDefinition) acc =>
             let cd := doc_of r nd.2 in
             <[cd.1 := cd.2 :: default [] (acc !! cd.1)]> acc)
          ∅ (map_to_list (defs r)) in
  (fun cm : string * list MarkerDoc =>
     {| cat_Category := cm.1; cat_Markers := cm.2 |}) <$> map_to_list grouped.

Global Program Instance engine : Engine := {|
  Registry := registry;
  Runtime := runtime;
  empty_Registry := empty;
  MakeDefinition := make;
  Register := add;
  AddHelp := add_help;
  RegisterOptionsMarkers := add_options;
  OutputToDirectory := to_directory;
  OutputToStdout := to_stdout;
  FromOptions := from_options;
  RegistryFromOptions := registry_from_options;
  runtime_Generators := selected;
  runtime_Run := had_errors;
  ByCategory := by_category;
  marker_names := fun r => dom (defs r);
  option_markers := {[ "paths" ]};
|}.
Next Obligation. intros n t p d [= <-]. done. Qed.
Next Obligation. done. Qed.
Next Obligation.
  intros r d r'. unfold add. case_bool_decide; [done|].
  intros [= <-]. simpl. by rewrite dom_insert_L.
Qed.
Next Obligation. done. Qed.
Next Obligation.
  intros r r'. unfold add_options, add. case_bool_decide; [done|].
  intros [= <-]. simpl. by rewrite dom_insert_L.
Qed.

End Strict.

(** An engine that differs from [Strict] in one point: registering a name
    that the registry already holds replaces the definition, and is not an
    error. *)
Module Replacing.

Definition add (r : Strict.registry) (d : MarkerDefinition) : error + Strict.registry :=
  inr {| Strict.defs := <[Name d := d]> (Strict.defs r); Strict.helps := Strict.helps r |}.

Definition add_options (r : Strict.registry) : error + Strict.registry :=
  add r Strict.paths_marker.

Program Definition engine : Engine := {|
  Registry := Strict.registry;
  Runtime := Strict.runtime;
  empty_Registry := Strict.empty;
  MakeDefinition := Strict.make;
  Register := add;
  AddHelp := Strict.add_help;
  RegisterOptionsMarkers := add_options;
  OutputToDirectory := Strict.to_directory;
  OutputToStdout := Strict.to_stdout;
  FromOptions := Strict.from_options;
  RegistryFromOptions := Strict.registry_from_options;
  runtime_Generators := Strict.selected;
  runtime_Run := Strict.had_errors;
  ByCategory := Strict.by_category;
  marker_names := fun r => dom (Strict.defs r);
  option_markers := {[ "paths" ]};
|}.
Next Obligation. intros n t p d [= <-]. done. Qed.
Next Obligation. done. Qed.
Next Obligation. intros r d r' [= <-]. simpl. by rewrite dom_insert_L. Qed.
Next Obligation. done. Qed.
Next Obligation. intros r r' [= <-]. simpl. by rewrite dom_insert_L. Qed.

End Replacing.

(** ** A demo tool *)

(** The scenario of section 8: a tool named ["demo"] with one generator
    ["obj"] and the default output rules, on the engine above. *)
Definition sample_generator (ty : string) (err : option error) : Generator :=
  {| gen_type := ty;
     gen_help := HasHelp (Some {| Category := "demo"; Summary := ty |});
     gen_generate := err |}.

Definition obj_generator : Generator := sample_generator "ObjGenerator" None.
Definition other_generator : Generator := sample_generator "OtherGenerator" None.
Definition failing_generator : Generator :=
  sample_generator "FailingGenerator" (Some (errorString 3 "cannot generate")).

Definition quiet_world : World :=
  {| stdout := []; stderr := []; stdout_fault := None; stderr_fault := None;
     engine_calls := []; next_error := 10 |}.

Definition demo : Builder := WithGenerator "obj" obj_generator (New "demo").
Definition failing_demo : Builder := WithGenerator "obj" failing_generator (New "demo").


(** A generator whose name is the default marker of the rule ["dir"]. *)
Definition clashing : Builder := WithGenerator "output:dir" obj_generator (New "demo").

(** The [Cmd] a builder yields from the empty heap, and the heap. *)
Definition built (b : Builder) : Cmd * Heap :=
  match Apply b empty_heap with
  | Ok r => r
  | Panic _ =>
      ({| name := ""; description := ""; helper := ""; generators := nil_map;
          markerRegistry := 1%positive; outputRules := nil_map |}, empty_heap)
  end.

Definition built_from (h : Heap) (b : Builder) : Cmd * Heap :=
  match Apply b h with
  | Ok r => r
  | Panic _ =>
      ({| name := ""; description := ""; helper := ""; generators := nil_map;
          markerRegistry := 1%positive; outputRules := nil_map |}, h)
  end.

Definition registered (b : Builder) : Heap :=
  match register (built b).1 (built b).2 with
  | Ok (_, h) => h
  | Panic _ => (built b).2
  end.

Definition registry_of (b : Builder) : Strict.registry :=
  default Strict.empty (registries (registered b) !! markerRegistry (built b).1).

Definition no_flags (opts : list string) : Invocation :=
  {| showVersion := false; helpLevel := 0; whichLevel := 0;
     rawOpts := opts; os_Args := opts |}.

Definition version_and_more : Invocation :=
  {| showVersion := true; helpLevel := 2; whichLevel := 3;
     rawOpts := ["obj"]; os_Args := ["--version"; "-hh"; "-www"; "obj"] |}.

(** A heap in which the caller of the builder holds a generator map (at
    location 1, empty) and an output-rule map (at location 1, one rule). *)
Definition file_rule : OutputRule := {| rule_type := "OutputToFile"; rule_help := NoHelp |}.

Definition callers_heap : Heap :=
  {| gen_maps := {[ 1%positive := ∅ ]};
     rule_maps := {[ 1%positive := {[ "file" := file_rule ]} ]};
     registries := ∅ |}.


(** The caller's rule map given as the replacement twice, with a rule added
    in between. *)
Definition extra_rule : OutputRule := {| rule_type := "OutputToNull"; rule_help := NoHelp |}.

Definition replaced_twice : Builder :=
  WithOutputRules (map_at 1%positive)
    (WithOutputRule "extra" extra_rule (WithOutputRules (map_at 1%positive) (New "demo"))).

Definition added_to_nil : Builder :=
  WithOutputRule "extra" extra_rule (WithOutputRules nil_map (New "demo")).

(** ** Strings, runes and [Title] *)

(** A Go string is a sequence of bytes; [[]rune(s)] decodes it as UTF-8 and
    [string(runes)] encodes.  The masks and shifts of the [utf8] package
    are written with [mod], [/] and [*]. *)
Section Runes.
Local Open Scope Z_scope.

Definition RuneError : Z := 0xFFFD.
Definition MaxRune : Z := 0x10FFFF.
Definition MaxASCII : Z := 0x7F.

Definition byte_of (a : ascii) : Z := Z.of_N (N_of_ascii a).
Definition ascii_of (b : Z) : ascii := ascii_of_N (Z.to_N b).

Fixpoint bytes (s : string) : list Z :=
  match s with
  | EmptyString => []
  | String a t => byte_of a :: bytes t
  end.

Fixpoint string_of_bytes (bs : list Z) : string :=
  match bs with
  | [] => EmptyString
  | b :: t => String (ascii_of b) (string_of_bytes t)
  end.

(** The [first] table of package [utf8]: for a lead byte, the length of
    the sequence and the range accepted for the second byte. *)
Definition first (s0 : Z) : option (nat * Z * Z) :=
  if s0 <? 0xC2 then None
  else if s0 <=? 0xDF then Some (2%nat, 0x80, 0xBF)
  else if s0 =? 0xE0 then Some (3%nat, 0xA0, 0xBF)
  else if s0 <=? 0xEC then Some (3%nat, 0x80, 0xBF)
  else if s0 =? 0xED then Some (3%nat, 0x80, 0x9F)
  else if s0 <=? 0xEF then Some (3%nat, 0x80, 0xBF)
  else if s0 =? 0xF0 then Some (4%nat, 0x90, 0xBF)
  else if s0 <=? 0xF3 then Some (4%nat, 0x80, 0xBF)
  else if s0 =? 0xF4 then Some (4%nat, 0x80, 0x8F)
  else None.

Definition continuation (b : Z) : bool := (0x80 <=? b) && (b <=? 0xBF).

(** [utf8.DecodeRune]: the rune at the front of [s] and its width; an
    invalid or truncated sequence decodes to [RuneError] of width 1. *)
Definition DecodeRune (s : list Z) : Z * nat :=
  match s with
  | [] => (RuneError, 0%nat)
  | s0 :: t =>
      if s0 <? 0x80 then (s0, 1%nat)
      else
        match first s0, t with
        | Some (sz, lo, hi), s1 :: t1 =>
            if (s1 <? lo) || (hi <? s1) then (RuneError, 1%nat)
            else if (sz <=? 2)%nat then (s0 mod 32 * 64 + s1 mod 64, 2%nat)
            else
              match t1 with
              | s2 :: t2 =>
                  if negb (continuation s2) then (RuneError, 1%nat)
                  else if (sz <=? 3)%nat then
                    (s0 mod 16 * 4096 + s1 mod 64 * 64 + s2 mod 64, 3%nat)
                  else
                    match t2 with
                    | s3 :: _ =>
                        if negb (continuation s3) then (RuneError, 1%nat)
                        else (s0 mod 8 * 262144 + s1 mod 64 * 4096
                              + s2 mod 64 * 64 + s3 mod 64, 4%nat)
                    | [] => (RuneError, 1%nat)
                    end
              | [] => (RuneError, 1%nat)
              end
        | _, _ => (RuneError, 1%nat)
        end
  end.

(** The decoding loop: at each position either a rune starts there, or
    the byte belongs to the rune decoded before ([skip] bytes to go). *)
Fixpoint runes_from (skip : nat) (s : list Z) : list Z :=
  match s with
  | [] => []
  | _ :: t =>
      match skip with
      | S k => runes_from k t
      | O => let r := DecodeRune s in r.1 :: runes_from (Nat.pred r.2) t
      end
  end.

(** [[]rune(s)] *)
Definition runes (s : string) : list Z := runes_from 0 (bytes s).

Definition valid_rune (r : Z) : bool :=
  (0 <=? r) && (r <=? MaxRune) && negb ((0xD800 <=? r) && (r <=? 0xDFFF)).

(** What a rune reads back as once encoded: itself, or [RuneError] when it
    is out of range or a surrogate. *)
Definition sanitize (r : Z) : Z := if valid_rune r then r else RuneError.

(** [utf8.EncodeRune] *)
Definition encoderune (r : Z) : list Z :=
  if (0 <=? r) && (r <=? 0x7F) then [r]
  else if (0 <=? r) && (r <=? 0x7FF) then [0xC0 + r / 64; 0x80 + r mod 64]
  else
    let r' := if valid_rune r then r else RuneError in
    if r' <=? 0xFFFF then
      [0xE0 + r' / 4096; 0x80 + r' / 64 mod 64; 0x80 + r' mod 64]
    else
      [0xF0 + r' / 262144; 0x80 + r' / 4096 mod 64; 0x80 + r' / 64 mod 64;
       0x80 + r' mod 64].

(** [string(rs)] for a rune slice *)
Definition string_of_runes (rs : list Z) : string :=
  string_of_bytes (List.concat (encoderune <$> rs)).

(** [unicode.To(unicode.UpperCase, r)], the case tables of the [unicode]
    package, used above ASCII. *)
Variable To_UpperCase : Z → Z.

(** [unicode.ToUpper] *)
Definition ToUpper (r : Z) : Z :=
  if r <=? MaxASCII then
    if (97 <=? r) && (r <=? 122) then r - (97 - 65) else r
  else To_UpperCase r.

Definition index_out_of_range : PanicValue :=
  PanicRuntime "index out of range [0] with length 0".

Definition Title (s : string) : Result string :=
  let r := runes s in
  match r with
  | [] => Panic index_out_of_range
  | r0 :: rest => Ok (string_of_runes (ToUpper r0 :: rest))
  end.

End Runes.

(** Upper-casing that leaves every rune above ASCII alone, for examples. *)
Definition ascii_only_upper : Z → Z := fun r => r.


(** ** WriteFile and GeneratedFilename *)

Definition newline : string := String (ascii_of_nat 10) "".
Definition quote : string := String (ascii_of_nat 34) "".

(** [io.ErrShortWrite], a variable of package [io]. *)
Definition ErrShortWrite : error := errorString 5 "short write".

(** The [io.WriteCloser] that [Ctx.Open] hands back: what [Write] returns
    for the bytes it is given, and what [Close] returns. *)
Record WriteCloser : Type := {
  wc_Write : string → nat * option error;
  wc_Close : option error;
}.

(** [loader.Package], as far as [WriteFile] reads it. *)
Record Package : Type := { pkg_Name : string }.

(** [genall.GenerationContext], as far as [WriteFile] calls it. *)
Record GenerationContext : Type := {
  ctx_ReadFile : string → error + string;
  ctx_Open : Package → string → error + WriteCloser;
}.

Record WriteFileOption : Type := {
  CmdName : string;
  Filename : string;
  HeaderFile : string;
  Buffer : option string;
  Ctx : option GenerationContext;
  Root : option Package;
}.

Inductive FileEvent : Type :=
  | FileOpened (pkg : string) (filename : string)
  | FileWritten (filename : string) (data : string) (n : nat)
  | FileClosed (filename : string).

(** What [WriteFile] leaves behind: the errors added to the root package
    with [AddError], and what happened to files. *)
Record Outputs : Type := {
  root_errors : list error;
  file_events : list FileEvent;
}.

Definition AddError (err : error) (st : Outputs) : Outputs :=
  {| root_errors := root_errors st ++ [err]; file_events := file_events st |}.

Definition file_event (e : FileEvent) (st : Outputs) : Outputs :=
  {| root_errors := root_errors st; file_events := file_events st ++ [e] |}.

Section WriteFileModel.

(** [format.Source] of package [go/format]. *)
Variable format_Source : string → error + string.

(** The text [WriteFile] assembles before formatting: [headerTemplate]
    prints its second argument and a newline, then comes the generated-code
    notice when a command name is given, then the buffer. *)
Definition assembled (headerText cmdName body : string) : string :=
  let buffer := headerText +:+ newline in
  let buffer :=
    if bool_decide (cmdName = "") then buffer
    else buffer +:+ newline +:+ "// Code generated by " +:+ cmdName
                +:+ ". DO NOT EDIT." +:+ newline in
  buffer +:+ body.

Definition WriteFile (o : WriteFileOption) (st : Outputs)
  : Result (option error * Outputs) :=
  let header : Result (error + string) :=
    if bool_decide (HeaderFile o = "") then Ok (inr "")
    else
      match Ctx o with
      | None => Panic nil_dereference
      | Some ctx => Ok (ctx_ReadFile ctx (HeaderFile o))
      end in
  match header with
  | Panic v => Panic v
  | Ok (inl err) => Ok (Some err, st)
  | Ok (inr headerText) =>
      match Root o with
      | None => Panic nil_dereference
      | Some root =>
          match Buffer o with
          | None => Panic nil_dereference
          | Some body =>
              let outBytes := assembled headerText (CmdName o) body in
              let formatted : string * Outputs :=
                match format_Source outBytes with
                | inl err => (outBytes, AddError err st)
                | inr formatted => (formatted, st)
                end in
              let outBytes := formatted.1 in
              let st := formatted.2 in
              match Ctx o with
              | None => Panic nil_dereference
              | Some ctx =>
                  match ctx_Open ctx root (Filename o) with
                  | inl err => Ok (Some err, st)
                  | inr outputFile =>
                      let st := file_event (FileOpened (pkg_Name root) (Filename o)) st in
                      let written := wc_Write outputFile outBytes in
                      let st := file_event (FileWritten (Filename o) outBytes written.1) st in
                      let result :=
                        match written.2 with
                        | Some err => Some err
                        | None =>
                            if (written.1 <? String.length outBytes)%nat
                            then Some ErrShortWrite
                            else None
                        end in
                      (* the deferred close *)
                      let st := file_event (FileClosed (Filename o)) st in
                      let st :=
                        match wc_Close outputFile with
                        | Some err => AddError err st
                        | None => st
                        end in
                      Ok (result, st)
                  end
              end
          end
      end
  end.

End WriteFileModel.

(** The header text [WriteFile] uses: none without a header file, else
    what the context reads. *)
Definition header_of (o : WriteFileOption) (ctx : GenerationContext) : error + string :=
  if bool_decide (HeaderFile o = "") then inr "" else ctx_ReadFile ctx (HeaderFile o).

Definition GeneratedFilename (prefix name : string) : string :=
  "zz_generated." +:+ prefix +:+ "." +:+ name +:+ ".go".

Definition dot : ascii := ascii_of_nat 46.

(** ** The scaffolding tool, [cmd/genutils] *)

Module Scaffold.

(** The errors the tool builds and meets: [errors.New] and [fmt.Errorf]
    texts, [os.ErrNotExist] (and the error numbers that match it), the
    [*fs.PathError] of [os.Stat], and [errors.Join]. *)
Inductive ToolError : Type :=
  | TextError (text : string)
  | NotExist
  | PathError (op path : string) (inner : ToolError)
  | JoinError (errs : list ToolError).

(** [errors.Is(err, os.ErrNotExist)]: through [Unwrap] of a path error and
    of a join. *)
Fixpoint Is_NotExist (err : ToolError) : bool :=
  match err with
  | TextError _ => false
  | NotExist => true
  | PathError _ _ inner => Is_NotExist inner
  | JoinError errs => existsb Is_NotExist errs
  end.

(** [errors.Join] of errors that are all non-nil. *)
Definition errors_Join (errs : list ToolError) : ToolError := JoinError errs.

(** [strings.Split(s, sep)] for a separator of one byte: the pieces between
    the occurrences of [sep], at least one piece. *)
Fixpoint Split (s : string) (sep : ascii) : list string :=
  match s with
  | EmptyString => [EmptyString]
  | String a t =>
      if bool_decide (a = sep) then EmptyString :: Split t sep
      else
        match Split t sep with
        | piece :: rest => String a piece :: rest
        | [] => [String a EmptyString]
        end
  end.

Definition comma : ascii := ascii_of_nat 44.
Definition colon : ascii := ascii_of_nat 58.

Record cmdFlag : Type := { cmd_name : string; cmd_path : string }.
Record generatorFlag : Type := { gen_name : string; gen_path : string }.

Definition initCmdFlag : string := "cmd".
Definition initGeneratorsFlag : string := "generators".

Definition newInvalidFlagInputErr (flagName : string) : ToolError :=
  TextError ("invalid input for flag " +:+ quote +:+ "--" +:+ flagName +:+ quote).

Section Tool.

(** [strconv.Quote], behind the verb [%q]; the usage text of the
    generators flag; and [os.Stat], nil when the file is there. *)
Variable Quote : string → string.
Variable initGeneratorsUsage : string.
Variable Stat : string → option ToolError.

Definition fileShouldNotExist (path : string) : option ToolError :=
  match Stat path with
  | None => Some (TextError "file already exist, the program will abort")
  | Some err => if negb (Is_NotExist err) then Some err else None
  end.

Definition parseCmdAndValidate (s : string) : ToolError + option cmdFlag :=
  if bool_decide (s = "") then inr None
  else inr (Some {| cmd_name := s; cmd_path := "cmd/" +:+ s |}).

Definition parseGeneratorsErr (s : string) : ToolError :=
  errors_Join [TextError ("received: " +:+ Quote s);
               newInvalidFlagInputErr initGeneratorsFlag;
               TextError ("usage: " +:+ initGeneratorsUsage)].

Definition expect_two : ToolError :=
  TextError ("expect 2 sub-arguments separated by a colon ("
             +:+ quote +:+ ":" +:+ quote +:+ ")").

(** The loop of [parseGeneratorsAndValidate] over the pieces between
    commas, [generators] being the slice appended to. *)
Fixpoint parse_inputs (perr : ToolError) (inputs : list string)
    (generators : list generatorFlag) : ToolError + list generatorFlag :=
  match inputs with
  | [] => inr generators
  | input :: rest =>
      let sl := Split input colon in
      if negb (length sl =? 2)%nat then inl (errors_Join [expect_two; perr])
      else
        let genName := nth 0 sl "" in
        if bool_decide (genName = "") then
          inl (errors_Join [TextError "name cannot be empty"; perr])
        else
          let genPath := nth 1 sl "" in
          if bool_decide (genPath = "") then
            inl (errors_Join [TextError "path cannot be empty"; perr])
          else
            match fileShouldNotExist genPath with
            | Some err => inl (errors_Join [err; perr])
            | None =>
                parse_inputs perr rest
                  (generators ++ [{| gen_name := genName; gen_path := genPath |}])%list
            end
  end.

Definition parseGeneratorsAndValidate (s : string) : ToolError + list generatorFlag :=
  let perr := parseGeneratorsErr s in
  match parse_inputs perr (Split s comma) [] with
  | inl err => inl err
  | inr generators =>
      if (length generators =? 0)%nat then
        inl (errors_Join [TextError "expected at least one generator"; perr])
      else inr generators
  end.

(** The two functions that build Go source with the [jen] library and
    write it: their result, and a record of each call. *)
Inductive Generation : Type :=
  | CmdWithGenerators (cmd : cmdFlag) (generators : list generatorFlag)
  | GeneratorWithCmdName (generators : list generatorFlag) (cmdName : string).

Variable outcome : Generation → option ToolError.

Definition Tool (A : Type) : Type := list Generation → A * list Generation.

Definition generateCmdWithGenerators (cmd : cmdFlag) (generators : list generatorFlag)
  : Tool (option ToolError) :=
  fun log => (outcome (CmdWithGenerators cmd generators),
               (log ++ [CmdWithGenerators cmd generators])%list).

Definition generateGeneratorWithCmdName (generators : list generatorFlag) (cmdName : string)
  : Tool (option ToolError) :=
  fun log => (outcome (GeneratorWithCmdName generators cmdName),
               (log ++ [GeneratorWithCmdName generators cmdName])%list).

Definition generateCmd (cmd : cmdFlag) : Tool (option ToolError) :=
  generateCmdWithGenerators cmd [].

Definition generateGenerator (generators : list generatorFlag) : Tool (option ToolError) :=
  generateGeneratorWithCmdName generators "".

(** [runE], with the values of the two flags. *)
Definition runE (initCmd initGenerators : string) : Tool (option ToolError) :=
  fun log =>
    match parseCmdAndValidate initCmd with
    | inl err => (Some err, log)
    | inr cmd =>
        match parseGeneratorsAndValidate initGenerators with
        | inl err => (Some err, log)
        | inr generators =>
            match cmd with
            | Some cmd =>
                if (length generators =? 0)%nat then generateCmd cmd log
                else
                  let r := generateGeneratorWithCmdName generators (cmd_name cmd) log in
                  match r.1 with
                  | Some err => (Some err, r.2)
                  | None =>
                      let r := generateCmdWithGenerators cmd generators r.2 in
                      match r.1 with
                      | Some err => (Some err, r.2)
                      | None => (None, r.2)
                      end
                  end
            | None => generateGenerator generators log
            end
        end
    end.

End Tool.

(** [strings.Join] with a separator of one byte. *)
Fixpoint Join (pieces : list string) (sep : ascii) : string :=
  match pieces with
  | [] => EmptyString
  | [piece] => piece
  | piece :: rest => piece +:+ String sep (Join rest sep)
  end.

(** The bytes of a string. *)
Fixpoint chars (s : string) : list ascii :=
  match s with
  | EmptyString => []
  | String a t => a :: chars t
  end.

(** How a generator is written on the command line. *)
Definition shown (g : generatorFlag) : string :=
  gen_name g +:+ String colon (gen_path g).

(** A generator the parser accepts: a name and a path that are not empty
    and hold neither separator, and [os.Stat] of the path fails with an
    error that is [os.ErrNotExist]. *)
Definition acceptable (Stat : string → option ToolError) (g : generatorFlag) : Prop :=
  gen_name g ≠ "" ∧ gen_path g ≠ "" ∧
  (colon ∉ chars (gen_name g)) ∧ (comma ∉ chars (gen_name g)) ∧
  (colon ∉ chars (gen_path g)) ∧ (comma ∉ chars (gen_path g)) ∧
  ∃ err, Stat (gen_path g) = Some err ∧ Is_NotExist err = true.

(** What one piece the loop accepts looks like. *)
Definition parsed_from (Stat : string → option ToolError) (input : string)
    (g : generatorFlag) : Prop :=
  input = shown g ∧ gen_name g ≠ "" ∧ gen_path g ≠ "" ∧
  (colon ∉ chars (gen_name g)) ∧ (colon ∉ chars (gen_path g)) ∧
  fileShouldNotExist Stat (gen_path g) = None.

(** A run of the tool to try things on: [strconv.Quote] for texts that
    need no escape, a file system on which no path exists, generation
    functions that succeed. *)
Definition plain_Quote (s : string) : string := quote +:+ s +:+ quote.
Definition empty_disk (path : string) : option ToolError :=
  Some (PathError "stat" path NotExist).
Definition all_succeed (_ : Generation) : option ToolError := None.
Definition two_generators : list generatorFlag :=
  [{| gen_name := "a"; gen_path := "x" |}; {| gen_name := "b"; gen_path := "y" |}].

(** A file system on which every [os.Stat] fails for want of permission. *)
Definition locked_disk (path : string) : option ToolError :=
  Some (PathError "stat" path (TextError "permission denied")).

End Scaffold.

(** A sink that takes every byte, one that takes none and fails to close,
    a context that opens the first, and options to write a file with. *)
Definition full_sink : WriteCloser :=
  {| wc_Write := fun data => (String.length data, None); wc_Close := None |}.

Definition stuck_sink : WriteCloser :=
  {| wc_Write := fun _ => (0, None); wc_Close := Some (errorString 8 "close failed") |}.

Definition context_on (sink : WriteCloser) : GenerationContext :=
  {| ctx_ReadFile := fun _ => inl (errorString 6 "no such header");
     ctx_Open := fun _ _ => inr sink |}.

Definition closed_context : GenerationContext :=
  {| ctx_ReadFile := fun _ => inl (errorString 6 "no such header");
     ctx_Open := fun _ _ => inl (errorString 7 "cannot open") |}.

Definition options_on (ctx : GenerationContext) : WriteFileOption :=
  {| CmdName := "demo"; Filename := GeneratedFilename "demo" "obj"; HeaderFile := "";
     Buffer := Some "package obj"; Ctx := Some ctx; Root := Some {| pkg_Name := "obj" |} |}.

Definition rejecting_format (_ : string) : error + string :=
  inl (errorString 9 "expected declaration").

Definition accepting_format (text : string) : error + string := inr text.

Definition no_outputs : Outputs := {| root_errors := []; file_events := [] |}.

(** The text of the demo file: an empty header line, the notice, the
    buffer; and the record of its being written in full. *)
Definition demo_text : string :=
  newline +:+ newline +:+ "// Code generated by demo. DO NOT EDIT." +:+ newline
  +:+ "package obj".

Definition written_once : Outputs :=
  {| root_errors := [];
     file_events := [FileOpened "obj" (GeneratedFilename "demo" "obj");
                     FileWritten (GeneratedFilename "demo" "obj") demo_text
                       (String.length demo_text);
                     FileClosed (GeneratedFilename "demo" "obj")] |}.

(** ** Vocabulary of the statements *)

Section Vocabulary.
Context `{engine : Engine} `{order : RangeOrder}.

(** The names known to the registry behind pointer [p]. *)
Definition reg_names (p : loc) (h : Heap) : option (gset string) :=
  marker_names <$> (registries h !! p).

(** Registration leaves the generator and output-rule maps alone. *)
Definition same_maps (h h' : Heap) : Prop :=
  gen_maps h' = gen_maps h ∧ rule_maps h' = rule_maps h.

(** The three statements both rule loops of [register] repeat. *)
Definition register_rule (g : Cmd) (markerName : string) (rule : OutputRule) : Go unit :=
  do ruleMarker <- Must (MakeDefinition markerName DescribesPackage (OutputRulePlugin rule));
  do err <- registry_Register (markerRegistry g) ruleMarker;
  panic_on err;;
  add_help (markerRegistry g) ruleMarker (rule_help rule).

(** The body of the loop over the generators. *)
Definition register_generator (g : Cmd) (genName : string) (generator : Generator) : Go unit :=
  do def <- Must (MakeDefinition genName DescribesPackage (GeneratorPlugin generator));
  do err <- registry_Register (markerRegistry g) def;
  panic_on err;;
  add_help (markerRegistry g) def (gen_help generator);;
  do rules <- read_rules (outputRules g);
  for_range (range rules) (fun ruleName rule =>
    register_rule g ("output:" +:+ genName +:+ ":" +:+ ruleName) rule).

(** Builders assembled from [New] without replacing a whole map. *)
Inductive fresh_builder : Builder → Prop :=
  | fresh_New n : fresh_builder (New n)
  | fresh_WithDescription d b :
      fresh_builder b → fresh_builder (WithDescription d b)
  | fresh_WithHelper x b :
      fresh_builder b → fresh_builder (WithHelper x b)
  | fresh_WithGenerator k v b :
      fresh_builder b → fresh_builder (WithGenerator k v b)
  | fresh_WithOutputRule k v b :
      fresh_builder b → fresh_builder (WithOutputRule k v b).


(** Every object of [h] is still there, unchanged, in [h']. *)
Definition extends (h h' : Heap) : Prop :=
  gen_maps h ⊆ gen_maps h' ∧ rule_maps h ⊆ rule_maps h' ∧
  registries h ⊆ registries h'.

(** What a [Cmd] amounts to in a heap: its strings, the entries of its two
    maps and the registry behind its pointer. *)
Record Configuration : Type := {
  cfg_name : string;
  cfg_description : string;
  cfg_helper : string;
  cfg_generators : gmap string Generator;
  cfg_outputRules : gmap string OutputRule;
  cfg_registry : option Registry;
}.

Definition configuration (c : Cmd) (h : Heap) : Configuration :=
  {| cfg_name := name c;
     cfg_description := description c;
     cfg_helper := helper c;
     cfg_generators := gens_of h (generators c);
     cfg_outputRules := rules_of h (outputRules c);
     cfg_registry := registries h !! markerRegistry c |}.

(** The categories a listing shows: those with a name. *)
Definition named (helpInfo : list CategoryDoc) : list CategoryDoc :=
  filter (fun cat => cat_Category cat ≠ "") helpInfo.

Definition summary_blocks (helpInfo : list CategoryDoc) : list Block :=
  (fun cat => MarkersSummary (cat_Category cat) (cat_Markers cat)) <$> named helpInfo.

Definition details_blocks (fullDetail : bool) (helpInfo : list CategoryDoc) : list Block :=
  (fun cat => MarkersDetails fullDetail (cat_Category cat) (cat_Markers cat))
    <$> named helpInfo.

(** The rendering of section 4.4, level by level: what goes to the
    primary stream and what goes to the diagnostic stream. *)
Definition rendered (level : nat) (helpInfo : list CategoryDoc) : list Block * list Block :=
  match level with
  | 1 => ([], summary_blocks helpInfo)
  | 2 => ([], details_blocks false helpInfo)
  | 3 => ([], details_blocks true helpInfo)
  | 4 => ([JsonDocument helpInfo], [])
  | _ => ([], [])
  end.

(** The world after [out] went to standard output and [err] to standard
    error. *)
Definition wrote (w : World) (out err : list Block) : World :=
  {| stdout := stdout w ++ out; stderr := stderr w ++ err;
     stdout_fault := stdout_fault w; stderr_fault := stderr_fault w;
     engine_calls := engine_calls w; next_error := next_error w |}.

Definition working (w : World) : Prop :=
  stdout_fault w = None ∧ stderr_fault w = None.

End Vocabulary.

(** ** Further vocabulary *)

Section Steps.
Context `{engine : Engine}.








End Steps.

(** Where the [Unwrap] chain of an error ends. *)
Fixpoint innermost (e : error) : error :=
  match e with
  | wrapError _ _ inner => innermost inner
  | _ => e
  end.

(** Another visiting order: the enumeration backwards. *)
Definition reversed_order : RangeOrder := {|
  range := fun V (m : gmap string V) => reverse (map_to_list m);
  range_perm := fun V m => reverse_Permutation (map_to_list m);
|}.

Definition registered_backwards (b : Builder) : Heap :=
  match register (order := reversed_order) (built b).1 (built b).2 with
  | Ok (_, h) => h
  | Panic _ => (built b).2
  end.

(** The zero value of [Cmd]: nil maps and a nil registry pointer. *)
Definition zero_Cmd : Cmd :=
  {| name := ""; description := ""; helper := ""; generators := nil_map;
     markerRegistry := 1%positive; outputRules := nil_map |}.

(** A standard error that rejects every write. *)
Definition broken_pipe : error := errorString 3 "write /dev/stderr: broken pipe".

Definition deaf_world : World :=
  {| stdout := []; stderr := []; stdout_fault := None; stderr_fault := Some broken_pipe;
     engine_calls := []; next_error := 10 |}.

Section Frames.
Context `{engine : Engine}.

(** A step that leaves every map alone, and every registry but the one
    behind [p]. *)
Definition only_registry (p : loc) (h h' : Heap) : Prop :=
  gen_maps h' = gen_maps h ∧ rule_maps h' = rule_maps h ∧
  ∀ q, q ≠ p → registries h' !! q = registries h !! q.

(** The world after the calls [calls] into the engine. *)
Definition called (w : World) (calls : list EngineCall) : World :=
  {| stdout := stdout w; stderr := stderr w;
     stdout_fault := stdout_fault w; stderr_fault := stderr_fault w;
     engine_calls := engine_calls w ++ calls; next_error := next_error w |}.

End Frames.

(** * Properties *)

Example Title_hello : Title ascii_only_upper "hello" = Ok "Hello".
Proof. reflexivity. Qed.

Section Registration.
Context `{engine : Engine} `{order : RangeOrder}.

Lemma bind_Ok {A B} (c : Go A) (k : A → Go B) h r :
  bind c k h = Ok r ↔ ∃ a h1, c h = Ok (a, h1) ∧ k a h1 = Ok r.
Proof.
  unfold bind. destruct (c h) as [[a h1]|v]; split.
  - eauto.
  - by intros (? & ? & [= <- <-] & ?).
  - done.
  - by intros (? & ? & ? & ?).
Qed.

Lemma same_maps_refl h : same_maps h h.
Proof. by split. Qed.

Lemma same_maps_trans h1 h2 h3 : same_maps h1 h2 → same_maps h2 h3 → same_maps h1 h3.
Proof. intros [? ?] [? ?]. split; congruence. Qed.

Lemma same_maps_gens h h' m : same_maps h h' → gens_of h' m = gens_of h m.
Proof. intros [Hg _]. destruct m; simpl; by rewrite ?Hg. Qed.

Lemma same_maps_rules h h' m : same_maps h h' → rules_of h' m = rules_of h m.
Proof. intros [_ Hr]. destruct m; simpl; by rewrite ?Hr. Qed.

Lemma registry_Register_Ok p def h h' :
  registry_Register p def h = Ok (None, h') →
  ∃ S, reg_names p h = Some S ∧ reg_names p h' = Some ({[ Name def ]} ∪ S) ∧ same_maps h h'.
Proof.
  unfold registry_Register, reg_names.
  destruct (registries h !! p) as [r|] eqn:Hr; [|done].
  destruct (Register r def) as [e|r'] eqn:Hreg; [done|].
  intros [= <-]. exists (marker_names r). simpl.
  rewrite lookup_insert_eq. simpl.
  by rewrite (marker_names_Register _ _ _ Hreg).
Qed.

Lemma add_help_Ok p def cap h h' :
  add_help p def cap h = Ok (tt, h') →
  reg_names p h' = reg_names p h ∧ same_maps h h'.
Proof.
  unfold add_help, registry_AddHelp, reg_names, ret.
  destruct cap as [|[help|]]; try by intros [= <-].
  destruct (registries h !! p) as [r|] eqn:Hr; [|done].
  intros [= <-]. simpl. rewrite lookup_insert_eq. simpl.
  by rewrite marker_names_AddHelp.
Qed.

Lemma panic_on_Ok err h r : panic_on err h = Ok r → err = None ∧ r = (tt, h).
Proof. destruct err; [done|]. by intros [= <-]. Qed.

Lemma Must_Ok n t p h def h' :
  Must (MakeDefinition n t p) h = Ok (def, h') → Name def = n ∧ h' = h.
Proof.
  unfold Must. destruct (MakeDefinition n t p) as [e|d] eqn:Hd; [done|].
  intros [= <- <-]. by apply MakeDefinition_fields in Hd as (-> & _).
Qed.

Lemma register_rule_Ok g n rule h h' :
  register_rule g n rule h = Ok (tt, h') →
  ∃ S, reg_names (markerRegistry g) h = Some S ∧
       reg_names (markerRegistry g) h' = Some ({[ n ]} ∪ S) ∧ same_maps h h'.
Proof.
  unfold register_rule.
  intros (def & h1 & Hmk & H)%bind_Ok.
  apply Must_Ok in Hmk as [Hname ->].
  apply bind_Ok in H as (err & h2 & Hreg & H).
  apply bind_Ok in H as ([] & h3 & Hp & Hhelp).
  apply panic_on_Ok in Hp as [-> [= <-]].
  apply registry_Register_Ok in Hreg as (S & HS & HS' & Hm).
  apply add_help_Ok in Hhelp as [Hn Hm'].
  exists S. rewrite Hn, HS', Hname. eauto using same_maps_trans.
Qed.

(** A loop that registers one rule marker per entry adds exactly the
    names of the entries visited. *)
Lemma rule_loop_Ok g (f : string → string) (entries : list (string * OutputRule)) h h' S :
  for_range entries (fun ruleName rule => register_rule g (f ruleName) rule) h = Ok (tt, h') →
  reg_names (markerRegistry g) h = Some S →
  reg_names (markerRegistry g) h' = Some (list_to_set (f <$> entries.*1) ∪ S) ∧
  same_maps h h'.
Proof.
  revert h S. induction entries as [|[k v] rest IH]; intros h S; simpl.
  - intros [= <-] ->. split; [f_equal; set_solver|apply same_maps_refl].
  - intros ([] & h1 & Hstep & Hrest)%bind_Ok HS.
    apply register_rule_Ok in Hstep as (S0 & HS0 & HS1 & Hm).
    rewrite HS in HS0. injection HS0 as <-.
    destruct (IH _ _ Hrest HS1) as [-> Hm'].
    split; [f_equal; set_solver|eauto using same_maps_trans].
Qed.

Lemma register_unfold g :
  register g =
  ((do gens <- read_gens (generators g);
    for_range (range gens) (register_generator g));;
   (do rules <- read_rules (outputRules g);
    for_range (range rules) (fun ruleName rule =>
      register_rule g ("output:" +:+ ruleName) rule));;
   do err <- registry_RegisterOptionsMarkers (markerRegistry g);
   panic_on err).
Proof. reflexivity. Qed.

Lemma register_generator_Ok g genName generator h h' S :
  register_generator g genName generator h = Ok (tt, h') →
  reg_names (markerRegistry g) h = Some S →
  reg_names (markerRegistry g) h' =
    Some (list_to_set ((fun r => "output:" +:+ genName +:+ ":" +:+ r)
                         <$> (range (rules_of h (outputRules g))).*1)
          ∪ ({[ genName ]} ∪ S)) ∧
  same_maps h h'.
Proof.
  unfold register_generator.
  intros (def & h1 & Hmk & H)%bind_Ok HS.
  apply Must_Ok in Hmk as [Hname ->].
  apply bind_Ok in H as (err & h2 & Hreg & H).
  apply bind_Ok in H as ([] & h3 & Hp & H).
  apply panic_on_Ok in Hp as [-> [= <-]].
  apply bind_Ok in H as ([] & h4 & Hhelp & H).
  apply bind_Ok in H as (rules & h5 & Hread & Hloop).
  injection Hread as <- <-.
  apply registry_Register_Ok in Hreg as (S0 & HS0 & HS2 & Hm2).
  rewrite HS in HS0. injection HS0 as <-.
  apply add_help_Ok in Hhelp as [Hn Hm4].
  rewrite HS2, Hname in Hn.
  pose proof (same_maps_trans _ _ _ Hm2 Hm4) as Hm.
  rewrite (same_maps_rules _ _ _ Hm) in Hloop.
  destruct (rule_loop_Ok _ _ _ _ _ _ Hloop Hn) as [-> Hm5].
  eauto using same_maps_trans.
Qed.

Lemma generator_loop_Ok g (entries : list (string * Generator)) h h' S :
  for_range entries (register_generator g) h = Ok (tt, h') →
  reg_names (markerRegistry g) h = Some S →
  ∃ S', reg_names (markerRegistry g) h' = Some S' ∧ same_maps h h' ∧
    ∀ n, n ∈ S' ↔
      n ∈ S ∨
      ∃ k, k ∈ entries.*1 ∧
        (n = k ∨ ∃ r, r ∈ (range (rules_of h (outputRules g))).*1 ∧
                      n = "output:" +:+ k +:+ ":" +:+ r).
Proof.
  revert h S. induction entries as [|[k v] rest IH]; intros h S; simpl.
  - intros [= <-] ->. exists S. split; [done|]. split; [apply same_maps_refl|].
    set_solver.
  - intros ([] & h1 & Hstep & Hrest)%bind_Ok HS.
    destruct (register_generator_Ok _ _ _ _ _ _ Hstep HS) as [HS1 Hm1].
    destruct (IH _ _ Hrest HS1) as (S' & HS' & Hm' & Hiff).
    exists S'. split; [done|]. split; [eauto using same_maps_trans|].
    intros n. rewrite Hiff, (same_maps_rules _ _ _ Hm1). clear.
    rewrite !elem_of_union, elem_of_list_to_set, list_elem_of_fmap, elem_of_singleton.
    setoid_rewrite elem_of_cons. naive_solver.
Qed.

Lemma range_keys {V} (m : gmap string V) k : k ∈ (range m).*1 ↔ k ∈ dom m.
Proof.
  rewrite elem_of_dom, list_elem_of_fmap. split.
  - intros ([k' v] & -> & Hin). rewrite range_perm in Hin.
    apply elem_of_map_to_list in Hin. by exists v.
  - intros [v Hv]. exists (k, v). split; [done|].
    rewrite range_perm. by apply elem_of_map_to_list.
Qed.

(** The names [register] adds, shared by the statements below. *)
Lemma register_names_spec (c : Cmd) (h h' : Heap) (r0 : Registry) :
  registries h !! markerRegistry c = Some r0 →
  register c h = Ok (tt, h') →
  ∃ r', registries h' !! markerRegistry c = Some r' ∧
    same_maps h h' ∧
    ∀ n, n ∈ marker_names r' ↔
      n ∈ marker_names r0 ∨ n ∈ option_markers ∨
      (∃ g, g ∈ dom (gens_of h (generators c)) ∧ n = g) ∨
      (∃ g r, g ∈ dom (gens_of h (generators c)) ∧
              r ∈ dom (rules_of h (outputRules c)) ∧
              n = "output:" +:+ g +:+ ":" +:+ r) ∨
      (∃ r, r ∈ dom (rules_of h (outputRules c)) ∧ n = "output:" +:+ r).
Proof.
  intros Hr0. rewrite register_unfold.
  intros ([] & h1 & Hgens & H)%bind_Ok.
  apply bind_Ok in Hgens as (gens & h0 & Hread & Hgens). injection Hread as <- <-.
  apply bind_Ok in H as ([] & h2 & Hrules & H).
  apply bind_Ok in Hrules as (rules & h1' & Hread & Hrules). injection Hread as <- <-.
  apply bind_Ok in H as (err & h3 & Hopt & Hp).
  apply panic_on_Ok in Hp as [-> [= <-]].
  assert (reg_names (markerRegistry c) h = Some (marker_names r0)) as HS
    by (unfold reg_names; by rewrite Hr0).
  destruct (generator_loop_Ok _ _ _ _ _ Hgens HS) as (S1 & HS1 & Hm1 & Hiff1).
  destruct (rule_loop_Ok _ _ _ _ _ _ Hrules HS1) as [HS2 Hm2].
  unfold registry_RegisterOptionsMarkers in Hopt. unfold reg_names in HS2.
  destruct (registries h2 !! markerRegistry c) as [r2|] eqn:Hr2; [|done].
  destruct (RegisterOptionsMarkers r2) as [e|r3] eqn:Hr3; [done|].
  injection Hopt as <-. injection HS2 as HS2.
  exists r3. simpl. rewrite lookup_insert_eq. split; [done|].
  split.
  { destruct Hm1, Hm2. split; simpl; congruence. }
  intros n. rewrite (marker_names_options _ _ Hr3), HS2.
  rewrite (same_maps_rules _ _ _ Hm1).
  rewrite !elem_of_union, elem_of_list_to_set, list_elem_of_fmap, Hiff1.
  setoid_rewrite range_keys. naive_solver.
Qed.

(** Registration completes whenever the engine reports no error. *)
Section Completes.
Hypothesis MakeDefinition_ok : ∀ n t p, ∃ d, MakeDefinition n t p = inr d.
Hypothesis Register_ok : ∀ r d, ∃ r', Register r d = inr r'.
Hypothesis RegisterOptionsMarkers_ok : ∀ r, ∃ r', RegisterOptionsMarkers r = inr r'.

Lemma register_rule_completes g n rule h :
  is_Some (registries h !! markerRegistry g) →
  ∃ h', register_rule g n rule h = Ok (tt, h') ∧
        is_Some (registries h' !! markerRegistry g).
Proof.
  intros [r Hr]. unfold register_rule, bind, Must.
  destruct (MakeDefinition_ok n DescribesPackage (OutputRulePlugin rule)) as [d ->].
  unfold ret, registry_Register. rewrite Hr.
  destruct (Register_ok r d) as [r' ->]. simpl.
  unfold add_help, registry_AddHelp, ret.
  destruct (rule_help rule) as [|[help|]]; simpl; rewrite ?lookup_insert_eq;
    eexists; (split; [reflexivity|]); simpl; by rewrite lookup_insert_eq.
Qed.

Lemma rule_loop_completes g (f : string → string) (entries : list (string * OutputRule)) h :
  is_Some (registries h !! markerRegistry g) →
  ∃ h', for_range entries (fun ruleName rule => register_rule g (f ruleName) rule) h
          = Ok (tt, h') ∧
        is_Some (registries h' !! markerRegistry g).
Proof.
  revert h. induction entries as [|[k v] rest IH]; intros h Hv; simpl.
  - by exists h.
  - destruct (register_rule_completes g (f k) v h Hv) as (h1 & Hstep & Hv1).
    destruct (IH h1 Hv1) as (h2 & Hrest & Hv2).
    exists h2. unfold bind. by rewrite Hstep.
Qed.

Lemma register_generator_completes g genName generator h :
  is_Some (registries h !! markerRegistry g) →
  ∃ h', register_generator g genName generator h = Ok (tt, h') ∧
        is_Some (registries h' !! markerRegistry g).
Proof.
  intros [r Hr]. unfold register_generator, bind at 1, Must.
  destruct (MakeDefinition_ok genName DescribesPackage (GeneratorPlugin generator)) as [d ->].
  unfold ret, bind at 1, registry_Register. rewrite Hr.
  destruct (Register_ok r d) as [r' ->]. unfold bind at 1. simpl.
  set (h1 := {| gen_maps := gen_maps h; rule_maps := rule_maps h;
                registries := <[markerRegistry g := r']> (registries h) |}).
  assert (∃ h2, add_help (markerRegistry g) d (gen_help generator) h1 = Ok (tt, h2) ∧
                is_Some (registries h2 !! markerRegistry g)) as (h2 & Hhelp & Hv2).
  { unfold add_help, registry_AddHelp, ret, h1.
    destruct (gen_help generator) as [|[help|]]; simpl; rewrite ?lookup_insert_eq;
      eexists; (split; [reflexivity|]); simpl; by rewrite lookup_insert_eq. }
  unfold bind at 1. rewrite Hhelp. unfold bind, read_rules.
  apply (rule_loop_completes g (fun r => "output:" +:+ genName +:+ ":" +:+ r) _ h2 Hv2).
Qed.

Lemma generator_loop_completes g (entries : list (string * Generator)) h :
  is_Some (registries h !! markerRegistry g) →
  ∃ h', for_range entries (register_generator g) h = Ok (tt, h') ∧
        is_Some (registries h' !! markerRegistry g).
Proof.
  revert h. induction entries as [|[k v] rest IH]; intros h Hv; simpl.
  - by exists h.
  - destruct (register_generator_completes g k v h Hv) as (h1 & Hstep & Hv1).
    destruct (IH h1 Hv1) as (h2 & Hrest & Hv2).
    exists h2. unfold bind. by rewrite Hstep.
Qed.

Lemma register_completes c h :
  is_Some (registries h !! markerRegistry c) →
  ∃ h', register c h = Ok (tt, h').
Proof.
  intros Hv. rewrite register_unfold.
  destruct (generator_loop_completes c (range (gens_of h (generators c))) h Hv)
    as (h1 & Hgens & Hv1).
  destruct (rule_loop_completes c (fun r => "output:" +:+ r)
              (range (rules_of h1 (outputRules c))) h1 Hv1) as (h2 & Hrules & [r2 Hr2]).
  destruct (RegisterOptionsMarkers_ok r2) as [r3 Hr3].
  eexists. unfold bind at 1. unfold bind at 1, read_gens. rewrite Hgens.
  unfold bind at 1. unfold bind at 1, read_rules. rewrite Hrules.
  unfold bind, registry_RegisterOptionsMarkers. rewrite Hr2, Hr3. reflexivity.
Qed.

End Completes.

(** ** C1 *)

(** C1. After [register] has run on a configuration whose generator map
    holds the names [G] and whose output-rule map holds the names [R], the
    registry holds a marker named [g] for every [g] of [G], a marker
    ["output:g:r"] for every [g] of [G] and [r] of [R], and a marker
    ["output:r"] for every [r] of [R]; every marker it holds is one of
    these, one it held before, or one of the engine's option markers. *)
Theorem register_marker_names (c : Cmd) (h h' : Heap) (r0 : Registry) :
  registries h !! markerRegistry c = Some r0 →
  register c h = Ok (tt, h') →
  let G := dom (gens_of h (generators c)) in
  let R := dom (rules_of h (outputRules c)) in
  ∃ r', registries h' !! markerRegistry c = Some r' ∧
    (∀ g, g ∈ G → g ∈ marker_names r') ∧
    (∀ g r, g ∈ G → r ∈ R → "output:" +:+ g +:+ ":" +:+ r ∈ marker_names r') ∧
    (∀ r, r ∈ R → "output:" +:+ r ∈ marker_names r') ∧
    (∀ n, n ∈ marker_names r' →
       n ∈ G ∨
       (∃ g r, g ∈ G ∧ r ∈ R ∧ n = "output:" +:+ g +:+ ":" +:+ r) ∨
       (∃ r, r ∈ R ∧ n = "output:" +:+ r) ∨
       n ∈ marker_names r0 ∨ n ∈ option_markers).
Proof.
  intros Hr0 Hreg G R.
  destruct (register_names_spec _ _ _ _ Hr0 Hreg) as (r' & Hr' & _ & Hiff).
  exists r'. split; [done|].
  split; [intros g Hg; apply Hiff; eauto 10|].
  split; [intros g r Hg Hr; apply Hiff; eauto 10|].
  split; [intros r Hr; apply Hiff; eauto 10|].
  intros n Hn. apply Hiff in Hn as [?|[?|[(g & ? & ->)|[?|?]]]]; eauto 10.
Qed.

End Registration.

Section Builders.
Context `{engine : Engine} `{order : RangeOrder}.


Lemma extends_refl h : extends h h.
Proof. by repeat split. Qed.

Lemma extends_trans h1 h2 h3 : extends h1 h2 → extends h2 h3 → extends h1 h3.
Proof. intros (? & ? & ?) (? & ? & ?). repeat split; by etrans. Qed.

Lemma fresh_loc_None {V} (m : gmap loc V) : m !! fresh (dom m) = None.
Proof. apply not_elem_of_dom, is_fresh. Qed.


(** What invoking a [fresh_builder] does: it never fails, it allocates
    the three objects of the [Cmd] outside the heap it started from, and
    what it builds does not depend on that heap. *)
Lemma fresh_builder_run b :
  fresh_builder b →
  ∃ cfg, ∀ h, ∃ c h' lg lo,
    b h = Ok (c, h') ∧ extends h h' ∧ configuration c h' = cfg ∧
    generators c = map_at lg ∧ outputRules c = map_at lo ∧
    gen_maps h !! lg = None ∧ rule_maps h !! lo = None ∧
    is_Some (gen_maps h' !! lg) ∧ is_Some (rule_maps h' !! lo).
Proof.
  induction 1 as [n|d b Hb [cfg IH]|x b Hb [cfg IH]|k v b Hb [cfg IH]|k v b Hb [cfg IH]].
  - eexists. intros h. eexists _, _, _, _. split; [reflexivity|].
    split; [|split].
    + repeat split; simpl; apply insert_subseteq, fresh_loc_None.
    + unfold configuration; simpl. rewrite !lookup_insert_eq. reflexivity.
    + simpl. rewrite !lookup_insert_eq. eauto 10 using fresh_loc_None.
  - exists {| cfg_name := cfg_name cfg; cfg_description := d; cfg_helper := cfg_helper cfg;
              cfg_generators := cfg_generators cfg; cfg_outputRules := cfg_outputRules cfg;
              cfg_registry := cfg_registry cfg |}.
    intros h. destruct (IH h) as (c & h' & lg & lo & Hrun & Hext & <- & Hg & Ho & H).
    unfold WithDescription, bind. rewrite Hrun. eexists _, h', lg, lo.
    split; [reflexivity|]. by repeat split; try apply Hext; try apply H.
  - exists {| cfg_name := cfg_name cfg; cfg_description := cfg_description cfg; cfg_helper := x;
              cfg_generators := cfg_generators cfg; cfg_outputRules := cfg_outputRules cfg;
              cfg_registry := cfg_registry cfg |}.
    intros h. destruct (IH h) as (c & h' & lg & lo & Hrun & Hext & <- & Hg & Ho & H).
    unfold WithHelper, bind. rewrite Hrun. eexists _, h', lg, lo.
    split; [reflexivity|]. by repeat split; try apply Hext; try apply H.
  - exists {| cfg_name := cfg_name cfg; cfg_description := cfg_description cfg;
              cfg_helper := cfg_helper cfg;
              cfg_generators := <[k := v]> (cfg_generators cfg);
              cfg_outputRules := cfg_outputRules cfg;
              cfg_registry := cfg_registry cfg |}.
    intros h.
    destruct (IH h) as (c & h' & lg & lo & Hrun & Hext & <- & Hg & Ho & Hng & Hno & [m Hm] & Hso).
    unfold WithGenerator, bind, gen_map_store. rewrite Hrun, Hg, Hm.
    eexists _, _, lg, lo. split; [reflexivity|].
    destruct Hext as (Hx1 & Hx2 & Hx3).
    split; [|split].
    + repeat split; simpl; try done. by apply insert_subseteq_r.
    + unfold configuration; simpl. rewrite Hg; simpl.
      by rewrite lookup_insert_eq, Hm.
    + simpl. rewrite lookup_insert_eq. eauto 10.
  - exists {| cfg_name := cfg_name cfg; cfg_description := cfg_description cfg;
              cfg_helper := cfg_helper cfg;
              cfg_generators := cfg_generators cfg;
              cfg_outputRules := <[k := v]> (cfg_outputRules cfg);
              cfg_registry := cfg_registry cfg |}.
    intros h.
    destruct (IH h) as (c & h' & lg & lo & Hrun & Hext & <- & Hg & Ho & Hng & Hno & Hsg & [m Hm]).
    unfold WithOutputRule, bind, rule_map_store. rewrite Hrun, Ho, Hm.
    eexists _, _, lg, lo. split; [reflexivity|].
    destruct Hext as (Hx1 & Hx2 & Hx3).
    split; [|split].
    + repeat split; simpl; try done. by apply insert_subseteq_r.
    + unfold configuration; simpl. rewrite Ho; simpl.
      by rewrite lookup_insert_eq, Hm.
    + simpl. rewrite lookup_insert_eq. eauto 10.
Qed.

Lemma WithGenerators_by_reference m b h c h' :
  b h = Ok (c, h') →
  ∃ c', WithGenerators m b h = Ok (c', h') ∧ generators c' = m ∧
        outputRules c' = outputRules c ∧ markerRegistry c' = markerRegistry c.
Proof. intros Hb. unfold WithGenerators, bind. rewrite Hb. by eexists. Qed.

Lemma WithOutputRules_by_reference m b h c h' :
  b h = Ok (c, h') →
  ∃ c', WithOutputRules m b h = Ok (c', h') ∧ outputRules c' = m ∧
        generators c' = generators c ∧ markerRegistry c' = markerRegistry c.
Proof. intros Hb. unfold WithOutputRules, bind. rewrite Hb. by eexists. Qed.

(** Writing into a nil map panics when the builder is invoked. *)
Lemma WithOutputRule_nil_map k r b h c h' :
  b h = Ok (c, h') →
  WithOutputRule k r (WithOutputRules nil_map b) h = Panic nil_map_write.
Proof. intros Hb. unfold WithOutputRule, WithOutputRules, bind. by rewrite Hb. Qed.

Lemma register_panic_stops_Run c inv h (w : World) v :
  register c h = Panic v → Run c inv h w = (Panicked v, w).
Proof. intros Hr. unfold Run. by rewrite Hr. Qed.

(** ** C3 *)

















(** ** C5 *)


(** ** C9 *)

(** C9, amended.  A configuration fresh from [New] has exactly the output
    rules ["dir"] and ["stdout"].  [WithOutputRules m] makes the map [m]
    itself the configuration's rule map: the rules, and the output markers
    [register] adds, are what [m] holds when the builder runs; on a
    builder assembled from [New] and a map of the caller these are the
    caller's entries alone, the defaults and the rules added one by one
    being gone, and with the nil map there is no rule.  [WithOutputRule k
    r] after [WithOutputRules m] writes into [m]: into a map holding [rs]
    it leaves [rs] with [k] set to [r], in the configuration and in the
    caller's map; on the nil map it panics. *)
Theorem output_rules_default_replace_add :
  (∀ n h, ∃ c h',
     New n h = Ok (c, h') ∧
     rules_of h' (outputRules c) =
       {[ "dir" := OutputToDirectory ""; "stdout" := OutputToStdout ]} ∧
     dom (rules_of h' (outputRules c)) = {[ "dir"; "stdout" ]}) ∧
  (∀ (b : Builder) m h c h',
     b h = Ok (c, h') →
     ∃ c', WithOutputRules m b h = Ok (c', h') ∧
       outputRules c' = m ∧
       rules_of h' (outputRules c') = rules_of h' m ∧
       gens_of h' (generators c') = gens_of h' (generators c) ∧
       ∀ r0 h'',
         registries h' !! markerRegistry c' = Some r0 →
         register c' h' = Ok (tt, h'') →
         ∃ r', registries h'' !! markerRegistry c' = Some r' ∧
           ∀ x, x ∈ marker_names r' ↔
             x ∈ marker_names r0 ∨ x ∈ option_markers ∨
             (∃ g, g ∈ dom (gens_of h' (generators c)) ∧ x = g) ∨
             (∃ g r, g ∈ dom (gens_of h' (generators c)) ∧
                     r ∈ dom (rules_of h' m) ∧
                     x = "output:" +:+ g +:+ ":" +:+ r) ∨
             (∃ r, r ∈ dom (rules_of h' m) ∧ x = "output:" +:+ r)) ∧
  (∀ (b : Builder) h, fresh_builder b →
     (∀ l rs, rule_maps h !! l = Some rs →
        ∃ c' h', WithOutputRules (map_at l) b h = Ok (c', h') ∧
                 rules_of h' (outputRules c') = rs) ∧
     (∃ c' h', WithOutputRules nil_map b h = Ok (c', h') ∧
               rules_of h' (outputRules c') = ∅)) ∧
  (∀ (b : Builder) k r h c h',
     b h = Ok (c, h') →
     WithOutputRule k r (WithOutputRules nil_map b) h = Panic nil_map_write ∧
     ∀ l rs, rule_maps h' !! l = Some rs →
       ∃ c' h'', WithOutputRule k r (WithOutputRules (map_at l) b) h = Ok (c', h'') ∧
         rules_of h'' (outputRules c') = <[k := r]> rs ∧
         rule_maps h'' !! l = Some (<[k := r]> rs)).
Proof.
  split; [|split; [|split]].
  - intros n h. eexists _, _. split; [reflexivity|]. simpl.
    rewrite lookup_insert_eq. simpl. split; [done|].
    rewrite dom_insert_L, dom_singleton_L. done.
  - intros b m h c h' Hb.
    destruct (WithOutputRules_by_reference m _ _ _ _ Hb) as (c' & Hrun & Ho & Hg & Hp).
    exists c'. split; [done|]. split; [done|]. rewrite Ho, Hg. split; [done|].
    split; [done|]. intros r0 h'' Hr0 Hreg.
    destruct (register_names_spec _ _ _ _ Hr0 Hreg) as (r' & Hr' & _ & Hiff).
    exists r'. split; [done|]. intros x. rewrite Hiff, Ho, Hg. done.
  - intros b h Hfresh. destruct (fresh_builder_run b Hfresh) as [cfg Hrun].
    destruct (Hrun h) as (c & h' & lg & lo & Hb & (_ & Hext & _) & _).
    split.
    + intros l rs Hl.
      destruct (WithOutputRules_by_reference (map_at l) _ _ _ _ Hb) as (c' & Hc' & Ho & _).
      exists c', h'. split; [done|]. rewrite Ho. simpl.
      by rewrite (lookup_weaken _ _ _ _ Hl Hext).
    + destruct (WithOutputRules_by_reference nil_map _ _ _ _ Hb) as (c' & Hc' & Ho & _).
      exists c', h'. split; [done|]. by rewrite Ho.
  - intros b k r h c h' Hb. split; [by eapply WithOutputRule_nil_map|].
    intros l rs Hl.
    unfold WithOutputRule, WithOutputRules, bind, rule_map_store. rewrite Hb. simpl.
    rewrite Hl. eexists _, _. split; [reflexivity|]. simpl.
    by rewrite lookup_insert_eq.
Qed.

End Builders.

Section Rendering.
Context `{engine : Engine} `{order : RangeOrder}.

Lemma wrote_nil (w : World) : wrote w [] [] = w.
Proof. destruct w. unfold wrote. simpl. by rewrite !app_nil_r. Qed.

Lemma wrote_wrote (w : World) a b c d :
  wrote (wrote w a b) c d = wrote w (a ++ c) (b ++ d).
Proof. unfold wrote. simpl. by rewrite !app_assoc. Qed.

Lemma write_Stderr_working b (w : World) :
  stderr_fault w = None → write Stderr b w = (None, wrote w [] [b]).
Proof.
  intros Hw. unfold write, stream_fault. rewrite Hw. unfold append_to, wrote.
  by rewrite app_nil_r.
Qed.

Lemma write_Stdout_working b (w : World) :
  stdout_fault w = None → write Stdout b w = (None, wrote w [b] []).
Proof.
  intros Hw. unfold write, stream_fault. rewrite Hw. unfold append_to, wrote.
  by rewrite app_nil_r.
Qed.

Lemma summary_loop_working helpInfo (w : World) :
  stderr_fault w = None →
  summary_loop Stderr helpInfo w = (None, wrote w [] (summary_blocks helpInfo)).
Proof.
  revert w. induction helpInfo as [|cat rest IH]; intros w Hw.
  - by rewrite wrote_nil.
  - unfold summary_blocks, named. cbn [summary_loop filter list_filter].
    case_bool_decide as Hc.
    + rewrite decide_False by (intros Hn; by apply Hn). by apply IH.
    + rewrite decide_True by done. unfold io_bind.
      rewrite write_Stderr_working by done.
      rewrite IH by done. by rewrite wrote_wrote.
Qed.

Lemma details_loop_working fullDetail helpInfo (w : World) :
  stderr_fault w = None →
  details_loop Stderr fullDetail helpInfo w =
    (None, wrote w [] (details_blocks fullDetail helpInfo)).
Proof.
  revert w. induction helpInfo as [|cat rest IH]; intros w Hw.
  - by rewrite wrote_nil.
  - unfold details_blocks, named. cbn [details_loop filter list_filter].
    case_bool_decide as Hc.
    + rewrite decide_False by (intros Hn; by apply Hn). by apply IH.
    + rewrite decide_True by done. unfold io_bind.
      rewrite write_Stderr_working by done.
      rewrite IH by done. by rewrite wrote_wrote.
Qed.

(** With both streams working, [helpForLevels] writes what [rendered]
    says and returns nil. *)
Lemma helpForLevels_rendered level reg sorter (w : World) :
  (level = jsonHelp → stdout_fault w = None) →
  (level ≠ jsonHelp → stderr_fault w = None) →
  helpForLevels Stdout Stderr level reg sorter w =
    (None, wrote w (rendered level (ByCategory reg sorter)).1
                   (rendered level (ByCategory reg sorter)).2).
Proof.
  intros Hout Herr. unfold helpForLevels, jsonHelp, detailedHelp, fullHelp, summaryHelp in *.
  destruct level as [|[|[|[|[|n]]]]]; simpl.
  - by rewrite wrote_nil.
  - apply summary_loop_working. by apply Herr.
  - apply details_loop_working. by apply Herr.
  - apply details_loop_working. by apply Herr.
  - apply write_Stdout_working. by apply Hout.
  - by rewrite wrote_nil.
Qed.

(** Above [jsonHelp] no case of the switch matches. *)
Lemma helpForLevels_above_json mainOut errOut level reg sorter (w : World) :
  jsonHelp < level → helpForLevels mainOut errOut level reg sorter w = (None, w).
Proof.
  intros Hl. unfold helpForLevels, jsonHelp, detailedHelp, fullHelp, summaryHelp in *.
  do 5 (destruct level as [|level]; [lia|]). done.
Qed.

End Rendering.

Section Dispatch.
Context `{engine : Engine} `{order : RangeOrder}.

(** Writing and rendering never call into the generation engine. *)
Lemma write_calls s b (w : World) : engine_calls (write s b w).2 = engine_calls w.
Proof. unfold write. destruct (stream_fault s w); [done|]. by destruct s. Qed.

Lemma summary_loop_calls errOut helpInfo (w : World) :
  engine_calls (summary_loop errOut helpInfo w).2 = engine_calls w.
Proof.
  revert w. induction helpInfo as [|cat rest IH]; intros w; simpl; [done|].
  case_bool_decide; [apply IH|]. unfold io_bind.
  pose proof (write_calls errOut (MarkersSummary (cat_Category cat) (cat_Markers cat)) w) as Hw.
  destruct (write errOut _ w) as [[e|] w1]; simpl in *; [done|]. by rewrite IH.
Qed.

Lemma details_loop_calls errOut fullDetail helpInfo (w : World) :
  engine_calls (details_loop errOut fullDetail helpInfo w).2 = engine_calls w.
Proof.
  revert w. induction helpInfo as [|cat rest IH]; intros w; simpl; [done|].
  case_bool_decide; [apply IH|]. unfold io_bind.
  pose proof (write_calls errOut
    (MarkersDetails fullDetail (cat_Category cat) (cat_Markers cat)) w) as Hw.
  destruct (write errOut _ w) as [[e|] w1]; simpl in *; [done|]. by rewrite IH.
Qed.

Lemma helpForLevels_calls mainOut errOut level reg sorter (w : World) :
  engine_calls (helpForLevels mainOut errOut level reg sorter w).2 = engine_calls w.
Proof.
  unfold helpForLevels. repeat case_match;
    auto using write_calls, summary_loop_calls, details_loop_calls.
Qed.

Lemma Usage_calls c reg level (w : World) :
  engine_calls (Usage c reg level w).2 = engine_calls w.
Proof.
  unfold Usage, io_bind.
  pose proof (write_calls Stderr
    (UsageText (name c) (description c) (description c) (helper c)) w) as H1.
  destruct (write Stderr (UsageText _ _ _ _) w) as [[e|] w1]; simpl in *; [done|].
  pose proof (write_calls Stderr OptionsHeader w1) as H2.
  destruct (write Stderr OptionsHeader w1) as [[e|] w2]; simpl in *; [congruence|].
  pose proof (helpForLevels_calls Stdout Stderr
    (if (level =? 0)%nat then summaryHelp else level) reg SortByOption w2) as H3.
  destruct (helpForLevels _ _ _ _ _ w2) as [r w3]; simpl in *. congruence.
Qed.

Lemma printMarkerDocs_calls reg opts level (w : World) :
  engine_calls (printMarkerDocs reg opts level w).2 =
    (engine_calls w ++ [CallRegistryFromOptions opts])%list.
Proof.
  unfold printMarkerDocs, io_bind. simpl.
  destruct (RegistryFromOptions reg opts); [done|].
  by rewrite helpForLevels_calls.
Qed.

(** With no flag set [RunE] goes on to build the runtime and writes
    nothing itself. *)
Lemma RunE_default_path c reg inv (w : World) :
  showVersion inv = false → helpLevel inv = 0 → whichLevel inv = 0 →
  stdout (RunE c reg inv w).2 = stdout w ∧
  stderr (RunE c reg inv w).2 = stderr w ∧
  ∃ rest, engine_calls (RunE c reg inv w).2 =
            (engine_calls w ++ CallFromOptions (rawOpts inv) :: rest)%list.
Proof.
  unfold RunE. intros -> -> ->. simpl. unfold io_bind. simpl.
  destruct (FromOptions reg (rawOpts inv)) as [e|rt]; [by repeat split; eexists|].
  destruct (length (runtime_Generators rt) =? 0)%nat; [by repeat split; eexists|].
  simpl. destruct (runtime_Run rt); simpl; rewrite <- app_assoc;
    by repeat split; eexists.
Qed.

Lemma RunE_marker_docs c reg inv (w : World) :
  showVersion inv = false → helpLevel inv = 0 → 0 < whichLevel inv →
  RunE c reg inv w =
    ((0, (printMarkerDocs reg (rawOpts inv) (whichLevel inv) w).1),
     (printMarkerDocs reg (rawOpts inv) (whichLevel inv) w).2).
Proof.
  unfold RunE. intros -> -> Hw. simpl. rewrite (proj2 (Nat.ltb_lt _ _) Hw).
  unfold io_bind. by destruct (printMarkerDocs _ _ _ _).
Qed.

(** ** C7 *)

(** C7. [RunE] takes one branch, chosen in this order.  With the version
    flag it prints the version and returns nil, whatever the counters and
    the options are: nothing goes to standard error and the engine is not
    called.  Otherwise a positive help counter gives the usage, whatever
    the marker-listing counter is, without a call into the engine;
    otherwise a positive marker-listing counter gives the marker docs,
    with the registry resolved and no runtime built; otherwise the
    runtime is built from the options. *)
Theorem RunE_priority (c : Cmd) (reg : Registry) (inv : Invocation) (w : World) :
  (showVersion inv = true →
     RunE c reg inv w = ((helpLevel inv, None), (print Stdout VersionText w).2) ∧
     engine_calls (RunE c reg inv w).2 = engine_calls w ∧
     stderr (RunE c reg inv w).2 = stderr w ∧
     (stdout_fault w = None →
      stdout (RunE c reg inv w).2 = (stdout w ++ [VersionText])%list)) ∧
  (showVersion inv = false → 0 < helpLevel inv →
     RunE c reg inv w = Usage c reg (helpLevel inv) w ∧
     engine_calls (RunE c reg inv w).2 = engine_calls w) ∧
  (showVersion inv = false → helpLevel inv = 0 → 0 < whichLevel inv →
     RunE c reg inv w =
       ((0, (printMarkerDocs reg (rawOpts inv) (whichLevel inv) w).1),
        (printMarkerDocs reg (rawOpts inv) (whichLevel inv) w).2) ∧
     engine_calls (RunE c reg inv w).2 =
       (engine_calls w ++ [CallRegistryFromOptions (rawOpts inv)])%list) ∧
  (showVersion inv = false → helpLevel inv = 0 → whichLevel inv = 0 →
     stdout (RunE c reg inv w).2 = stdout w ∧
     stderr (RunE c reg inv w).2 = stderr w ∧
     ∃ rest, engine_calls (RunE c reg inv w).2 =
               (engine_calls w ++ CallFromOptions (rawOpts inv) :: rest)%list).
Proof.
  unfold RunE. split; [|split; [|split]].
  - intros ->. unfold io_bind, print, io_bind, write. simpl.
    destruct (stdout_fault w) eqn:Hf; simpl; by repeat split.
  - intros -> Hh. rewrite (proj2 (Nat.ltb_lt _ _) Hh).
    split; [done|apply Usage_calls].
  - intros Hv Hh Hw. fold (RunE c reg inv). rewrite RunE_marker_docs by done.
    split; [done|]. apply printMarkerDocs_calls.
  - apply RunE_default_path.
Qed.

(** [errors.Is] against the zero [noUsageError]: a [noUsageError] that
    wraps an error is not equal to it and has nothing to unwrap. *)
Lemma errors_Is_wrapping_noUsageError e :
  errors_Is (noUsageError (Some e)) (noUsageError None) = false.
Proof. done. Qed.

Lemma errors_Is_errorString p text :
  errors_Is (errorString p text) (noUsageError None) = false.
Proof. done. Qed.

Lemma Usage_working c reg level (w : World) :
  stderr_fault w = None →
  let level' := if (level =? 0)%nat then summaryHelp else level in
  (level' = jsonHelp → stdout_fault w = None) →
  Usage c reg level w =
    ((level', None),
     wrote w (rendered level' (ByCategory reg SortByOption)).1
       ([UsageText (name c) (description c) (description c) (helper c); OptionsHeader]
          ++ (rendered level' (ByCategory reg SortByOption)).2)).
Proof.
  intros Herr level' Hout. unfold Usage, io_bind.
  rewrite write_Stderr_working by done.
  rewrite write_Stderr_working by done.
  fold level'. rewrite helpForLevels_rendered by (intros; simpl; auto).
  by rewrite !wrote_wrote.
Qed.

Lemma handle_calls c reg inv r (w : World) :
  engine_calls (handle c reg inv r w).2 = engine_calls w.
Proof.
  unfold handle. destruct r as [level [e|]]; simpl; [|done].
  unfold io_bind. destruct (errors_Is e (noUsageError None)); simpl.
  - destruct (write Stderr _ w) as [[?|] w1] eqn:Hw;
      by rewrite <- (write_calls Stderr (HintLine (name c) (os_Args inv)) w), Hw.
  - pose proof (Usage_calls c reg level w) as Hu.
    destruct (Usage c reg level w) as [[l [ue|]] w1]; simpl in *; [done|].
    destruct (write Stderr _ w1) as [[?|] w2] eqn:Hw;
      by rewrite <- Hu, <- (write_calls Stderr (HintLine (name c) (os_Args inv)) w1), Hw.
Qed.

(** Whatever the error and the state of the streams, the handler ends
    the process with a status other than zero. *)
Lemma handle_nonzero c reg inv level e (w : World) :
  exit_status (handle c reg inv (level, Some e) w).1 ≠ 0%Z.
Proof.
  unfold handle, io_bind. simpl.
  destruct (errors_Is e (noUsageError None)); simpl.
  - by destruct (write Stderr _ w) as [[?|] w1].
  - destruct (Usage c reg level w) as [[l [ue|]] w1]; simpl; [done|].
    by destruct (write Stderr _ w1) as [[?|] w2].
Qed.

(** An error that [errors.Is] does not match gets the usage, then the
    hint, then exit status 1. *)
Lemma handle_prints_usage c reg inv e (w : World) :
  errors_Is e (noUsageError None) = false →
  stderr_fault w = None →
  handle c reg inv (0, Some e) w =
    (Exited 1,
     wrote w []
       ([UsageText (name c) (description c) (description c) (helper c); OptionsHeader]
          ++ summary_blocks (ByCategory reg SortByOption)
          ++ [HintLine (name c) (os_Args inv)])).
Proof.
  intros His Herr. unfold handle, io_bind. simpl. rewrite His. simpl.
  rewrite Usage_working by done. simpl.
  rewrite write_Stderr_working by done.
  rewrite wrote_wrote. simpl. by rewrite <- ?app_assoc.
Qed.

Lemma print_calls s b (w : World) : engine_calls (print s b w).2 = engine_calls w.
Proof.
  unfold print, io_bind. rewrite <- (write_calls s b w). by destruct (write s b w).
Qed.

Lemma print_Stderr_working b (w : World) :
  stderr_fault w = None → (print Stderr b w).2 = wrote w [] [b].
Proof. intros Hw. unfold print, io_bind. by rewrite write_Stderr_working. Qed.

(** cobra reports the error of [RunE] on standard error and hands it on. *)
Lemma Execute_error c reg inv (w w1 : World) level e :
  RunE c reg inv w = ((level, Some e), w1) →
  Execute c reg inv w = ((level, Some e), (print Stderr (ErrorLine e) w1).2).
Proof.
  intros HRunE. unfold Execute, io_bind at 1. rewrite HRunE. simpl.
  unfold io_bind. by destruct (print Stderr (ErrorLine e) w1).
Qed.

Lemma Run_error c inv h h' reg (w w1 : World) level e :
  register c h = Ok (tt, h') →
  registries h' !! markerRegistry c = Some reg →
  RunE c reg inv w = ((level, Some e), w1) →
  Run c inv h w = handle c reg inv (level, Some e) (print Stderr (ErrorLine e) w1).2.
Proof.
  intros Hreg Hp HRunE. unfold Run. rewrite Hreg, Hp. unfold io_bind.
  by rewrite (Execute_error _ _ _ _ _ _ _ HRunE).
Qed.

(** ** C8 *)

(** C8. When the options resolve to a runtime with no generator, [RunE]
    returns the error "no generators specified", which is not
    usage-suppressed; the process ends with a non-zero status without
    running anything; and with a working standard error the error line,
    the usage text with the option summary and the hint are written and
    the status is 1. *)
Theorem no_generators_specified (c : Cmd) (inv : Invocation) (h h' : Heap)
    (reg : Registry) (rt : Runtime) (w : World) :
  register c h = Ok (tt, h') →
  registries h' !! markerRegistry c = Some reg →
  showVersion inv = false → helpLevel inv = 0 → whichLevel inv = 0 →
  FromOptions reg (rawOpts inv) = inr rt →
  runtime_Generators rt = [] →
  let err := errorString (next_error w) "no generators specified" in
  (RunE c reg inv w).1.2 = Some err ∧
  errors_Is err (noUsageError None) = false ∧
  exit_status (Run c inv h w).1 ≠ 0%Z ∧
  engine_calls (Run c inv h w).2 =
    (engine_calls w ++ [CallFromOptions (rawOpts inv)])%list ∧
  (stderr_fault w = None →
     (Run c inv h w).1 = Exited 1 ∧
     stdout (Run c inv h w).2 = stdout w ∧
     stderr (Run c inv h w).2 =
       (stderr w
        ++ [ErrorLine err;
            UsageText (name c) (description c) (description c) (helper c);
            OptionsHeader]
        ++ summary_blocks (ByCategory reg SortByOption)
        ++ [HintLine (name c) (os_Args inv)])%list).
Proof.
  intros Hreg Hp Hv Hh Hw Hopt Hgens err.
  assert (RunE c reg inv w =
          ((0, Some err), (errors_New "no generators specified"
                             (engine_call (CallFromOptions (rawOpts inv)) w).2).2)) as HRunE.
  { unfold RunE. rewrite Hv, Hh, Hw. simpl. unfold io_bind. simpl.
    by rewrite Hopt, Hgens. }
  split; [by rewrite HRunE|]. split; [done|].
  rewrite (Run_error _ _ _ _ _ _ _ _ _ Hreg Hp HRunE).
  split; [apply handle_nonzero|].
  split; [by rewrite handle_calls, print_calls|].
  intros Herr.
  rewrite print_Stderr_working by done.
  rewrite handle_prints_usage by done.
  repeat split; simpl; by rewrite ?app_nil_r, <- ?app_assoc.
Qed.

(** ** C2 *)

(** C2, what the code does.  When the run reports failure, [RunE] returns
    a [noUsageError] wrapping "not all generators ran successfully", but
    [errors.Is] does not match it against the zero [noUsageError], so
    with a working standard error the handler writes the usage text
    before the hint and exits with status 1. *)
Theorem aggregate_failure_prints_usage (c : Cmd) (inv : Invocation) (h h' : Heap)
    (reg : Registry) (rt : Runtime) (w : World) :
  register c h = Ok (tt, h') →
  registries h' !! markerRegistry c = Some reg →
  showVersion inv = false → helpLevel inv = 0 → whichLevel inv = 0 →
  FromOptions reg (rawOpts inv) = inr rt →
  runtime_Generators rt ≠ [] →
  runtime_Run rt = true →
  stderr_fault w = None →
  let err := noUsageError
               (Some (errorString (next_error w) "not all generators ran successfully")) in
  (RunE c reg inv w).1.2 = Some err ∧
  errors_Is err (noUsageError None) = false ∧
  (Run c inv h w).1 = Exited 1 ∧
  stderr (Run c inv h w).2 =
    (stderr w
     ++ [ErrorLine err;
         UsageText (name c) (description c) (description c) (helper c);
         OptionsHeader]
     ++ summary_blocks (ByCategory reg SortByOption)
     ++ [HintLine (name c) (os_Args inv)])%list.
Proof.
  intros Hreg Hp Hv Hh Hw Hopt Hgens Hrun Herr err.
  assert (RunE c reg inv w =
          ((0, Some err),
           (errors_New "not all generators ran successfully"
              (engine_call (CallRun rt)
                 (engine_call (CallFromOptions (rawOpts inv)) w).2).2).2)) as HRunE.
  { unfold RunE. rewrite Hv, Hh, Hw. simpl. unfold io_bind. simpl.
    rewrite Hopt. destruct (runtime_Generators rt); [done|]. simpl.
    by rewrite Hrun. }
  split; [by rewrite HRunE|]. split; [done|].
  rewrite (Run_error _ _ _ _ _ _ _ _ _ Hreg Hp HRunE).
  rewrite print_Stderr_working by done.
  rewrite handle_prints_usage by done.
  split; [done|]. simpl. by rewrite <- ?app_assoc.
Qed.

(** ** C4 *)

(** C4, amended.  The level is the number of repetitions, with no cap:
    for every level greater than 4 no case of [helpForLevels] matches, so
    nothing is written and nil is returned, and a marker listing asked for
    that many times writes nothing to either stream. *)
Theorem levels_above_json_render_nothing (level : nat) (reg : Registry)
    (sorter : SortGroup) (mainOut errOut : Stream) (w : World) :
  jsonHelp < level →
  helpForLevels mainOut errOut level reg sorter w = (None, w) ∧
  (∀ c inv,
     showVersion inv = false → helpLevel inv = 0 → whichLevel inv = level →
     stdout (RunE c reg inv w).2 = stdout w ∧
     stderr (RunE c reg inv w).2 = stderr w).
Proof.
  intros Hl. split; [by apply helpForLevels_above_json|].
  intros c inv Hv Hh Hw. unfold jsonHelp in Hl.
  rewrite RunE_marker_docs by (try done; lia). simpl.
  unfold printMarkerDocs, io_bind. simpl.
  destruct (RegistryFromOptions reg (rawOpts inv)) as [e|reg']; [done|].
  rewrite Hw, helpForLevels_above_json by done. done.
Qed.

(** What [RunE] does for a positive marker-listing counter, and for a
    positive help counter, when the streams work. *)
Lemma RunE_marker_docs_rendered c reg reg' inv (w : World) :
  working w →
  showVersion inv = false → helpLevel inv = 0 → 0 < whichLevel inv →
  RegistryFromOptions reg (rawOpts inv) = inr reg' →
  RunE c reg inv w =
    ((0, None),
     wrote (engine_call (CallRegistryFromOptions (rawOpts inv)) w).2
       (rendered (whichLevel inv) (ByCategory reg' SortByCategory)).1
       (rendered (whichLevel inv) (ByCategory reg' SortByCategory)).2).
Proof.
  intros [Hout Herr] Hv Hh Hw Hreg. rewrite RunE_marker_docs by done.
  unfold printMarkerDocs, io_bind. simpl. rewrite Hreg.
  by rewrite helpForLevels_rendered by done.
Qed.

Lemma RunE_help_rendered c reg inv (w : World) :
  working w →
  showVersion inv = false → 0 < helpLevel inv →
  RunE c reg inv w =
    ((helpLevel inv, None),
     wrote w (rendered (helpLevel inv) (ByCategory reg SortByOption)).1
       ([UsageText (name c) (description c) (description c) (helper c); OptionsHeader]
          ++ (rendered (helpLevel inv) (ByCategory reg SortByOption)).2)).
Proof.
  intros [Hout Herr] Hv Hh. unfold RunE. rewrite Hv, (proj2 (Nat.ltb_lt _ _) Hh).
  rewrite Usage_working by done.
  by replace (helpLevel inv =? 0)%nat with false by (symmetry; apply Nat.eqb_neq; lia).
Qed.

(** ** C6 *)

(** C6. With working streams: level 0 renders nothing, and an invocation
    with both counters at 0 and no version flag writes nothing from
    [RunE]; levels 1, 2 and 3 write to standard error one summary block,
    one reduced-detail block, one full-detail block per category whose
    name is not empty, in order; level 4 writes the whole help
    information as one json document to standard output.  A positive
    marker-listing counter renders the resolved registry at that level,
    a positive help counter renders the registry at that level after the
    usage text. *)
Theorem help_levels_render (reg : Registry) (sorter : SortGroup) (w : World) :
  working w →
  let helpInfo := ByCategory reg sorter in
  let shown := filter (fun cat => cat_Category cat ≠ "") helpInfo in
  helpForLevels Stdout Stderr 0 reg sorter w = (None, w) ∧
  (∀ c inv,
     showVersion inv = false → helpLevel inv = 0 → whichLevel inv = 0 →
     stdout (RunE c reg inv w).2 = stdout w ∧
     stderr (RunE c reg inv w).2 = stderr w) ∧
  helpForLevels Stdout Stderr 1 reg sorter w =
    (None, wrote w []
       ((fun cat => MarkersSummary (cat_Category cat) (cat_Markers cat)) <$> shown)) ∧
  helpForLevels Stdout Stderr 2 reg sorter w =
    (None, wrote w []
       ((fun cat => MarkersDetails false (cat_Category cat) (cat_Markers cat)) <$> shown)) ∧
  helpForLevels Stdout Stderr 3 reg sorter w =
    (None, wrote w []
       ((fun cat => MarkersDetails true (cat_Category cat) (cat_Markers cat)) <$> shown)) ∧
  helpForLevels Stdout Stderr 4 reg sorter w =
    (None, wrote w [JsonDocument helpInfo] []) ∧
  (∀ c inv reg0 level,
     showVersion inv = false → helpLevel inv = 0 → whichLevel inv = level → 0 < level →
     RegistryFromOptions reg0 (rawOpts inv) = inr reg →
     RunE c reg0 inv w =
       ((0, None),
        (helpForLevels Stdout Stderr level reg SortByCategory
           (engine_call (CallRegistryFromOptions (rawOpts inv)) w).2).2)) ∧
  (∀ c inv level,
     showVersion inv = false → helpLevel inv = level → 0 < level →
     RunE c reg inv w =
       ((level, None),
        (helpForLevels Stdout Stderr level reg SortByOption
           (wrote w [] [UsageText (name c) (description c) (description c) (helper c);
                        OptionsHeader])).2)).
Proof.
  intros [Hout Herr] helpInfo shown.
  split; [done|].
  split; [intros c inv Hv Hh Hw; by destruct (RunE_default_path c reg inv w) as (? & ? & _)|].
  split; [by rewrite helpForLevels_rendered by done|].
  split; [by rewrite helpForLevels_rendered by done|].
  split; [by rewrite helpForLevels_rendered by done|].
  split; [by rewrite helpForLevels_rendered by done|].
  split.
  - intros c inv reg0 level Hv Hh Hw Hl Hreg. subst level.
    rewrite (RunE_marker_docs_rendered c reg0 reg) by done.
    by rewrite helpForLevels_rendered by done.
  - intros c inv level Hv Hh Hl. subst level.
    rewrite RunE_help_rendered by done.
    rewrite helpForLevels_rendered by done. by rewrite wrote_wrote.
Qed.

End Dispatch.

Section TitleFacts.
Local Open Scope Z_scope.

Ltac dm := Z.div_mod_to_equations; lia.

(** Settle each comparison of the goal by arithmetic. *)
Ltac decide_tests :=
  repeat match goal with
  | |- context [ Z.ltb ?a ?b ] =>
      first [ replace (Z.ltb a b) with true by (symmetry; apply Z.ltb_lt; dm)
            | replace (Z.ltb a b) with false by (symmetry; apply Z.ltb_ge; dm) ]
  | |- context [ Z.leb ?a ?b ] =>
      first [ replace (Z.leb a b) with true by (symmetry; apply Z.leb_le; dm)
            | replace (Z.leb a b) with false by (symmetry; apply Z.leb_gt; dm) ]
  | |- context [ Z.eqb ?a ?b ] =>
      first [ replace (Z.eqb a b) with true by (symmetry; apply Z.eqb_eq; dm)
            | replace (Z.eqb a b) with false by (symmetry; apply Z.eqb_neq; dm) ]
  end.

Ltac crunch := repeat progress (decide_tests; cbv zeta; simpl).

(** Split on each comparison of the goal. *)
Ltac split_tests :=
  repeat match goal with
  | |- context [ Z.ltb ?a ?b ] => destruct (Z.ltb_spec a b)
  | |- context [ Z.leb ?a ?b ] => destruct (Z.leb_spec a b)
  | |- context [ Z.eqb ?a ?b ] => destruct (Z.eqb_spec a b)
  end.

Ltac rune_cases :=
  unfold DecodeRune, first, continuation; split_tests; try (exfalso; lia); simpl;
  unfold valid_rune, RuneError, MaxRune; decide_tests; done.

Lemma byte_of_range a : 0 <= byte_of a < 256.
Proof. unfold byte_of. pose proof (N_ascii_bounded a). lia. Qed.

Lemma byte_of_ascii_of b : 0 <= b < 256 → byte_of (ascii_of b) = b.
Proof. intros Hb. unfold byte_of, ascii_of. rewrite N_ascii_embedding; lia. Qed.

Lemma bytes_range s : Forall (fun b => 0 <= b < 256) (bytes s).
Proof. induction s; simpl; constructor; auto using byte_of_range. Qed.

Lemma bytes_string_of_bytes bs :
  Forall (fun b => 0 <= b < 256) bs → bytes (string_of_bytes bs) = bs.
Proof.
  induction 1 as [|b bs Hb _ IH]; simpl; [done|].
  by rewrite byte_of_ascii_of, IH.
Qed.

(** Decoding the encoding of a rune gives the rune back (or [RuneError]
    for a rune that has no encoding) and consumes exactly its bytes. *)
Lemma DecodeRune_encoderune r rest :
  DecodeRune (encoderune r ++ rest) = (sanitize r, length (encoderune r)).
Proof.
  unfold encoderune, sanitize, valid_rune, RuneError, MaxRune.
  assert (r < 0 ∨ 0 <= r <= 127 ∨ 128 <= r <= 2047 ∨ 2048 <= r < 4096
          ∨ 4096 <= r < 53248 ∨ 53248 <= r < 55296 ∨ 55296 <= r <= 57343
          ∨ 57344 <= r <= 65535 ∨ 65536 <= r < 262144 ∨ 262144 <= r < 1048576
          ∨ 1048576 <= r <= 1114111 ∨ 1114111 < r) as Hr by lia.
  destruct Hr as [H|[H|[H|[H|[H|[H|[H|[H|[H|[H|[H|H]]]]]]]]]]];
    crunch; unfold DecodeRune, first, continuation; crunch; try done; f_equal; dm.
Qed.

(** Every rune that decoding produces is a valid rune. *)
Lemma DecodeRune_valid s :
  Forall (fun b => 0 <= b < 256) s → s ≠ [] → valid_rune (DecodeRune s).1 = true.
Proof.
  intros Hs Hne. destruct s as [|s0 t]; [done|].
  apply Forall_cons in Hs as [H0 Ht].
  destruct t as [|s1 t1]; [rune_cases|].
  apply Forall_cons in Ht as [H1 Ht1].
  destruct t1 as [|s2 t2]; [rune_cases|].
  apply Forall_cons in Ht1 as [H2 Ht2].
  destruct t2 as [|s3 t3]; [rune_cases|].
  apply Forall_cons in Ht2 as [H3 Ht3].
  rune_cases.
Qed.

Lemma encoderune_range r : Forall (fun b => 0 <= b < 256) (encoderune r).
Proof.
  unfold encoderune, valid_rune, RuneError, MaxRune.
  assert (r < 0 ∨ 0 <= r <= 127 ∨ 128 <= r <= 2047 ∨ 2048 <= r < 55296
          ∨ 55296 <= r <= 57343 ∨ 57344 <= r <= 65535
          ∨ 65536 <= r <= 1114111 ∨ 1114111 < r) as Hr by lia.
  destruct Hr as [H|[H|[H|[H|[H|[H|[H|H]]]]]]];
    crunch; repeat apply Forall_cons_2; try apply Forall_nil_2; dm.
Qed.

Lemma encoderune_nonempty r : encoderune r ≠ [].
Proof. unfold encoderune. repeat case_match; done. Qed.

Lemma runes_from_skip t bs : runes_from (length t) (t ++ bs) = runes_from 0 bs.
Proof. induction t; simpl; auto. Qed.

Lemma runes_from_encoderune r bs :
  runes_from 0 (encoderune r ++ bs) = sanitize r :: runes_from 0 bs.
Proof.
  pose proof (DecodeRune_encoderune r bs) as Hd.
  destruct (encoderune r) as [|b0 t] eqn:He; [by apply encoderune_nonempty in He|].
  cbn [app runes_from]. cbn [app] in Hd. rewrite Hd. cbn [fst snd length Nat.pred].
  by rewrite runes_from_skip.
Qed.

Lemma runes_from_concat rs :
  runes_from 0 (List.concat (encoderune <$> rs)) = sanitize <$> rs.
Proof.
  induction rs as [|r rs IH]; [done|].
  cbn [fmap list_fmap List.concat]. rewrite runes_from_encoderune. by rewrite IH.
Qed.

(** [[]rune(string(rs))]: the runes come back, the invalid ones as
    [RuneError]. *)
Lemma runes_string_of_runes rs : runes (string_of_runes rs) = sanitize <$> rs.
Proof.
  unfold runes, string_of_runes. rewrite bytes_string_of_bytes.
  - apply runes_from_concat.
  - induction rs; simpl; [constructor|]. apply Forall_app; auto using encoderune_range.
Qed.

Lemma runes_from_valid bs k :
  Forall (fun b => 0 <= b < 256) bs →
  Forall (fun r => valid_rune r = true) (runes_from k bs).
Proof.
  intros Hbs. revert k. induction Hbs as [|b bs Hb Hbs IH]; intros k; [constructor|].
  destruct k; cbn [runes_from]; [|apply IH].
  constructor; [|apply IH].
  apply DecodeRune_valid; [by constructor|done].
Qed.

Lemma runes_valid s : Forall (fun r => valid_rune r = true) (runes s).
Proof. apply runes_from_valid, bytes_range. Qed.

Lemma sanitize_valid r : valid_rune r = true → sanitize r = r.
Proof. unfold sanitize. by intros ->. Qed.

Lemma sanitize_runes rs :
  Forall (fun r => valid_rune r = true) rs → sanitize <$> rs = rs.
Proof.
  induction 1 as [|r rs Hr _ IH]; [done|].
  cbn [fmap list_fmap]. fold (fmap sanitize rs). by rewrite sanitize_valid, IH.
Qed.

Lemma runes_nil s : runes s = [] ↔ s = "".
Proof. destruct s; [done|]. split; [|done]. unfold runes. simpl. done. Qed.

(** ** C10 *)

(** C10. For a non-empty string [Title] returns a string whose runes are
    those of the argument with the first one upper-cased and the others
    unchanged: a first rune from [a] to [z] comes back 32 lower, as the
    letter from [A] to [Z]; any other ASCII first rune comes back as it
    is; a first rune above ASCII comes back as the case table of the
    [unicode] package maps it (read back as [RuneError] should the table
    give a rune that has no encoding).  For the empty string [Title]
    panics with an index out of range. *)
Theorem Title_upper_first_rune (To_UpperCase : Z → Z) (s : string) :
  (s ≠ "" →
   ∃ r0 rest t u,
     runes s = r0 :: rest ∧
     Title To_UpperCase s = Ok t ∧
     runes t = u :: rest ∧
     (97 <= r0 <= 122 → u = r0 - 32) ∧
     (r0 <= 127 → ¬ (97 <= r0 <= 122) → u = r0) ∧
     (127 < r0 → u = sanitize (To_UpperCase r0))) ∧
  Title To_UpperCase "" = Panic index_out_of_range.
Proof.
  split; [|done].
  intros Hs. pose proof (runes_valid s) as Hv. unfold Title.
  destruct (runes s) as [|r0 rest] eqn:Hr; [by apply runes_nil in Hr|].
  apply Forall_cons in Hv as [Hr0 Hrest].
  exists r0, rest. eexists. exists (sanitize (ToUpper To_UpperCase r0)).
  split; [done|]. split; [done|]. split.
  { rewrite runes_string_of_runes. cbn [fmap list_fmap]. f_equal.
    by apply sanitize_runes. }
  assert (0 <= r0) as Hpos.
  { unfold valid_rune in Hr0. destruct (Z.leb_spec 0 r0); [done|discriminate]. }
  unfold sanitize, ToUpper, valid_rune, MaxASCII, MaxRune.
  split; [|split]; intros;
    destruct (Z.leb_spec 97 r0), (Z.leb_spec r0 122); try lia; crunch; done.
Qed.

End TitleFacts.

(** * The demo tool, evaluated *)

(** On an engine that reports no error, registration of any configuration
    with a registry completes. *)
Lemma register_completes_replacing (c : Cmd) (h : @Heap Replacing.engine) :
  is_Some (registries h !! markerRegistry c) →
  ∃ h', register (engine := Replacing.engine) c h = Ok (tt, h').
Proof.
  apply (register_completes (engine := Replacing.engine)).
  - intros n t p. by eexists.
  - intros r d. by eexists.
  - intros r. by eexists.
Qed.

(** [register_marker_names] on the demo tool. *)
Lemma register_marker_names_demo :
  let c := (built demo).1 in
  let h := (built demo).2 in
  let G := dom (gens_of h (generators c)) in
  let R := dom (rules_of h (outputRules c)) in
  registries h !! markerRegistry c = Some Strict.empty ∧
  register c h = Ok (tt, registered demo) ∧
  ∃ r', registries (registered demo) !! markerRegistry c = Some r' ∧
    (∀ g, g ∈ G → g ∈ marker_names r') ∧
    (∀ g r, g ∈ G → r ∈ R → "output:" +:+ g +:+ ":" +:+ r ∈ marker_names r') ∧
    (∀ r, r ∈ R → "output:" +:+ r ∈ marker_names r') ∧
    (∀ n, n ∈ marker_names r' →
       n ∈ G ∨
       (∃ g r, g ∈ G ∧ r ∈ R ∧ n = "output:" +:+ g +:+ ":" +:+ r) ∨
       (∃ r, r ∈ R ∧ n = "output:" +:+ r) ∨
       n ∈ marker_names Strict.empty ∨ n ∈ option_markers).
Proof.
  split; [reflexivity|]. split; [reflexivity|].
  apply (register_marker_names (built demo).1 (built demo).2 (registered demo) Strict.empty);
    reflexivity.
Defined.

Example demo_markers :
  elements (marker_names (registry_of demo)) =
    ["output:obj:stdout"; "output:obj:dir"; "output:stdout"; "output:dir"; "obj"; "paths"].
Proof. reflexivity. Qed.

(** [aggregate_failure_prints_usage] on the demo tool with a generator
    that fails: the usage text is on standard error. *)
Lemma aggregate_failure_prints_usage_demo :
  let c := (built failing_demo).1 in
  let err := noUsageError (Some (errorString 10 "not all generators ran successfully")) in
  (RunE c (registry_of failing_demo) (no_flags ["obj"]) quiet_world).1.2 = Some err ∧
  errors_Is err (noUsageError None) = false ∧
  (Run c (no_flags ["obj"]) (built failing_demo).2 quiet_world).1 = Exited 1 ∧
  stderr (Run c (no_flags ["obj"]) (built failing_demo).2 quiet_world).2 =
    ([] ++ [ErrorLine err; UsageText (name c) (description c) (description c) (helper c);
            OptionsHeader]
        ++ summary_blocks (ByCategory (registry_of failing_demo) SortByOption)
        ++ [HintLine (name c) (os_Args (no_flags ["obj"]))])%list.
Proof.
  apply (aggregate_failure_prints_usage (engine := Strict.engine) (built failing_demo).1
           (no_flags ["obj"])
           (built failing_demo).2 (registered failing_demo) (registry_of failing_demo)
           {| Strict.selected := [failing_generator] |} quiet_world);
    first [reflexivity | discriminate].
Defined.

Example aggregate_failure_output :
  Run (built failing_demo).1 (no_flags ["obj"]) (built failing_demo).2 quiet_world =
    (Exited 1,
     {| stdout := [];
        stderr :=
          [ErrorLine (noUsageError
                        (Some (errorString 10 "not all generators ran successfully")));
           UsageText "demo" "" "" ""; OptionsHeader;
           MarkersSummary "demo" [{| doc_name := "obj"; doc_summary := "FailingGenerator" |}];
           HintLine "demo" ["obj"]];
        stdout_fault := None; stderr_fault := None;
        engine_calls := [CallFromOptions ["obj"];
                         CallRun {| Strict.selected := [failing_generator] |}];
        next_error := 11 |}).
Proof. reflexivity. Qed.



(** Registration that does panic: a generator named like the default
    marker of the rule ["dir"]. *)
Example clashing_panics :
  register (built clashing).1 (built clashing).2 =
    Panic (PanicError (Strict.already_registered "output:dir")).
Proof. reflexivity. Qed.


(** C4, as stated, fails: five repetitions do not render what four do. *)
Lemma level_five_is_not_json :
  helpForLevels Stdout Stderr 5 (registry_of demo) SortByCategory quiet_world ≠
  helpForLevels Stdout Stderr 4 (registry_of demo) SortByCategory quiet_world.
Proof.
  rewrite helpForLevels_above_json by (unfold jsonHelp; lia).
  rewrite (helpForLevels_rendered (engine := Strict.engine)) by done.
  intros H. apply (f_equal (fun r => length (stdout r.2))) in H. discriminate H.
Qed.

Lemma levels_above_json_render_nothing_demo :
  jsonHelp < 5 ∧
  helpForLevels Stdout Stderr 5 (registry_of demo) SortByCategory quiet_world =
    (None, quiet_world) ∧
  (∀ c inv,
     showVersion inv = false → helpLevel inv = 0 → whichLevel inv = 5 →
     stdout (RunE c (registry_of demo) inv quiet_world).2 = stdout quiet_world ∧
     stderr (RunE c (registry_of demo) inv quiet_world).2 = stderr quiet_world).
Proof.
  split; [unfold jsonHelp; lia|].
  apply (levels_above_json_render_nothing (engine := Strict.engine) 5 (registry_of demo)
           SortByCategory
           Stdout Stderr quiet_world).
  unfold jsonHelp. lia.
Defined.


Lemma demo_is_fresh : fresh_builder demo.
Proof. repeat constructor. Qed.


Lemma help_levels_render_demo :
  working quiet_world ∧
  helpForLevels Stdout Stderr 3 (registry_of demo) SortByCategory quiet_world =
    (None, wrote quiet_world []
       ((fun cat => MarkersDetails true (cat_Category cat) (cat_Markers cat))
          <$> filter (fun cat => cat_Category cat ≠ "")
                (ByCategory (registry_of demo) SortByCategory))).
Proof.
  split; [split; reflexivity|].
  apply (help_levels_render (engine := Strict.engine) (registry_of demo) SortByCategory
           quiet_world).
  split; reflexivity.
Defined.

Example full_detail_of_demo :
  helpForLevels Stdout Stderr 3 (registry_of demo) SortByCategory quiet_world =
    (None, wrote quiet_world []
       [MarkersDetails true "demo" [{| doc_name := "obj"; doc_summary := "ObjGenerator" |}]]).
Proof. reflexivity. Qed.

Lemma RunE_priority_demo :
  showVersion version_and_more = true ∧
  RunE (built demo).1 (registry_of demo) version_and_more quiet_world =
    ((2, None), wrote quiet_world [VersionText] []).
Proof.
  split; [reflexivity|].
  apply (proj1 (RunE_priority (engine := Strict.engine) (built demo).1 (registry_of demo)
                  version_and_more quiet_world)).
  reflexivity.
Defined.

Lemma no_generators_specified_demo :
  let c := (built demo).1 in
  let err := errorString 10 "no generators specified" in
  (RunE c (registry_of demo) (no_flags []) quiet_world).1.2 = Some err ∧
  errors_Is err (noUsageError None) = false ∧
  exit_status (Run c (no_flags []) (built demo).2 quiet_world).1 ≠ 0%Z ∧
  engine_calls (Run c (no_flags []) (built demo).2 quiet_world).2 =
    ([] ++ [CallFromOptions []])%list ∧
  (stderr_fault quiet_world = None →
     (Run c (no_flags []) (built demo).2 quiet_world).1 = Exited 1 ∧
     stdout (Run c (no_flags []) (built demo).2 quiet_world).2 = [] ∧
     stderr (Run c (no_flags []) (built demo).2 quiet_world).2 =
       ([] ++ [ErrorLine err; UsageText (name c) (description c) (description c) (helper c);
               OptionsHeader]
           ++ summary_blocks (ByCategory (registry_of demo) SortByOption)
           ++ [HintLine (name c) (os_Args (no_flags []))])%list).
Proof.
  apply (no_generators_specified (engine := Strict.engine) (built demo).1 (no_flags [])
           (built demo).2
           (registered demo) (registry_of demo) {| Strict.selected := [] |} quiet_world);
    reflexivity.
Defined.

(** C9, as stated, fails: a rule added to the map that is then given as
    the replacement outlives the replacement, and a rule cannot be added
    after a replacement by the nil map. *)
Lemma replaced_rules_outlive_or_panic :
  Apply replaced_twice callers_heap = Ok (built_from callers_heap replaced_twice) ∧
  rules_of (built_from callers_heap replaced_twice).2
    (outputRules (built_from callers_heap replaced_twice).1) =
    {[ "extra" := extra_rule; "file" := file_rule ]} ∧
  Apply added_to_nil empty_heap = Panic nil_map_write.
Proof. repeat split; reflexivity. Qed.

Lemma output_rules_default_replace_add_demo :
  WithOutputRule "stdout" OutputToStdout (WithOutputRules nil_map (New "demo")) callers_heap =
    Panic nil_map_write ∧
  ∃ c' h'',
    WithOutputRule "stdout" OutputToStdout
      (WithOutputRules (map_at 1%positive) (New "demo")) callers_heap = Ok (c', h'') ∧
    rules_of h'' (outputRules c') = <["stdout" := OutputToStdout]> {[ "file" := file_rule ]} ∧
    rule_maps h'' !! 1%positive =
      Some (<["stdout" := OutputToStdout]> {[ "file" := file_rule ]}).
Proof.
  split.
  - apply (proj2 (proj2 (proj2 output_rules_default_replace_add)) (New "demo")
             "stdout" OutputToStdout callers_heap
             (built_from callers_heap (New "demo")).1 (built_from callers_heap (New "demo")).2).
    reflexivity.
  - apply (proj2 (proj2 (proj2 output_rules_default_replace_add)) (New "demo")
             "stdout" OutputToStdout callers_heap
             (built_from callers_heap (New "demo")).1 (built_from callers_heap (New "demo")).2);
      reflexivity.
Defined.

Lemma Title_upper_first_rune_hello :
  ∃ rest t,
    runes "hello" = 104%Z :: rest ∧
    Title ascii_only_upper "hello" = Ok t ∧
    runes t = 72%Z :: rest.
Proof.
  destruct (proj1 (Title_upper_first_rune ascii_only_upper "hello"))
    as (r0 & rest & t & u & Hrunes & HTitle & Ht & Hlower & _); [discriminate|].
  injection Hrunes as <- <-.
  eexists _, t. split; [reflexivity|]. split; [exact HTitle|].
  rewrite Ht. f_equal. apply Hlower. vm_compute. split; discriminate.
Defined.

Example Title_examples :
  Title ascii_only_upper "obj" = Ok "Obj" ∧
  Title ascii_only_upper "Obj" = Ok "Obj" ∧
  Title ascii_only_upper "" = Panic index_out_of_range.
Proof. repeat split; reflexivity. Qed.

(** * Writing generated files *)

Section WriteFileFacts.
Variable format_Source : string → error + string.

Lemma WriteFile_opened o st ctx root body headerText sink :
  Ctx o = Some ctx → Root o = Some root → Buffer o = Some body →
  header_of o ctx = inr headerText →
  ctx_Open ctx root (Filename o) = inr sink →
  let text := assembled headerText (CmdName o) body in
  let out := match format_Source text with inr f => f | inl _ => text end in
  let st1 := match format_Source text with inr _ => st | inl e => AddError e st end in
  let st2 := file_event (FileClosed (Filename o))
               (file_event (FileWritten (Filename o) out (wc_Write sink out).1)
                  (file_event (FileOpened (pkg_Name root) (Filename o)) st1)) in
  WriteFile format_Source o st =
    Ok (match (wc_Write sink out).2 with
        | Some e => Some e
        | None => if ((wc_Write sink out).1 <? String.length out)%nat
                  then Some ErrShortWrite else None
        end,
        match wc_Close sink with Some e => AddError e st2 | None => st2 end).
Proof.
  intros Hctx Hroot Hbuf Hh Hopen text out st1 st2.
  unfold WriteFile, header_of in *. rewrite Hctx, Hroot, Hbuf.
  destruct (bool_decide (HeaderFile o = "")).
  - injection Hh as <-. fold text. subst out st1 st2.
    destruct (format_Source text); simpl; by rewrite Hopen.
  - rewrite Hh. fold text. subst out st1 st2.
    destruct (format_Source text); simpl; by rewrite Hopen.
Qed.

(** X1. [WriteFile] never leaves a file open and never reports success
    without having written: either it fails before the file is opened and
    no file is touched, or the file is opened, written once and closed. *)
Theorem WriteFile_closes_what_it_opens (o : WriteFileOption) (st st' : Outputs)
    (res : option error) :
  WriteFile format_Source o st = Ok (res, st') →
  (file_events st' = file_events st ∧ ∃ e, res = Some e) ∨
  (∃ root out n,
     Root o = Some root ∧
     file_events st' =
       (file_events st ++ [FileOpened (pkg_Name root) (Filename o);
                           FileWritten (Filename o) out n;
                           FileClosed (Filename o)])%list).
Proof.
  unfold WriteFile.
  destruct (bool_decide (HeaderFile o = "")); simpl.
  - destruct (Root o) as [root|]; [|done].
    destruct (Buffer o) as [body|]; [|done].
    destruct (Ctx o) as [ctx|]; [|done].
    destruct (ctx_Open ctx root (Filename o)) as [e|sink].
    + intros [= <- <-]. left. split; [|by eexists].
      by destruct (format_Source _).
    + destruct (wc_Close sink); destruct (format_Source _);
        intros [= <- <-]; right; eexists root, _, _; (split; [done|]); simpl;
        by rewrite <- ?app_assoc.
  - destruct (Ctx o) as [ctx|]; [|done].
    destruct (ctx_ReadFile ctx (HeaderFile o)) as [e|headerText].
    { intros [= <- <-]. left. split; [done|by eexists]. }
    destruct (Root o) as [root|]; [|done].
    destruct (Buffer o) as [body|]; [|done].
    destruct (ctx_Open ctx root (Filename o)) as [e|sink].
    + intros [= <- <-]. left. split; [|by eexists].
      by destruct (format_Source _).
    + destruct (wc_Close sink); destruct (format_Source _);
        intros [= <- <-]; right; eexists root, _, _; (split; [done|]); simpl;
        by rewrite <- ?app_assoc.
Qed.

Lemma append_assoc (a b c : string) : (a +:+ b) +:+ c = a +:+ b +:+ c.
Proof.
  induction a as [|x a IH]; [done|].
  change (String x ((a +:+ b) +:+ c) = String x (a +:+ b +:+ c)). by rewrite IH.
Qed.

(** The text [WriteFile] hands to [format.Source]: the header text and a
    newline, the notice between two newlines when a command name is
    given, the buffer. *)
Lemma assembled_text headerText cmdName body :
  assembled headerText cmdName body =
    headerText +:+ newline
    +:+ (if bool_decide (cmdName = "") then ""
         else newline +:+ "// Code generated by " +:+ cmdName +:+ ". DO NOT EDIT."
              +:+ newline)
    +:+ body.
Proof.
  unfold assembled. cbv zeta. case_bool_decide; by rewrite !append_assoc.
Qed.

(** X2. A text that [format.Source] rejects is written as it is, header line,
    generated-code notice and buffer: the format error is added to the
    root package and is not what [WriteFile] returns. *)
Theorem WriteFile_format_failure (o : WriteFileOption) (st : Outputs)
    (ctx : GenerationContext) (root : Package) (body headerText : string)
    (sink : WriteCloser) (ferr : error) :
  Ctx o = Some ctx → Root o = Some root → Buffer o = Some body →
  header_of o ctx = inr headerText →
  ctx_Open ctx root (Filename o) = inr sink →
  let notice :=
    if bool_decide (CmdName o = "") then ""
    else newline +:+ "// Code generated by " +:+ CmdName o +:+ ". DO NOT EDIT."
         +:+ newline in
  let text := headerText +:+ newline +:+ notice +:+ body in
  format_Source text = inl ferr →
  ∃ res st',
    WriteFile format_Source o st = Ok (res, st') ∧
    file_events st' =
      (file_events st ++ [FileOpened (pkg_Name root) (Filename o);
                          FileWritten (Filename o) text (wc_Write sink text).1;
                          FileClosed (Filename o)])%list ∧
    ferr ∈ root_errors st' ∧
    (wc_Write sink text = (String.length text, None) → res = None).
Proof.
  intros Hctx Hroot Hbuf Hh Hopen notice text Hf.
  rewrite (WriteFile_opened o st ctx root body headerText sink) by done.
  rewrite assembled_text. fold notice. fold text.
  rewrite Hf. eexists _, _. split; [reflexivity|].
  split; [|split].
  - destruct (wc_Close sink); simpl; by rewrite <- ?app_assoc.
  - destruct (wc_Close sink); simpl; set_solver.
  - intros ->. simpl. by rewrite Nat.ltb_irrefl.
Qed.

(** X3. Once the file is open, [WriteFile] returns nil exactly when [Write]
    reported no error and took all the bytes; a short write without error
    gives [io.ErrShortWrite]; an error of [Close] is added to the root
    package and never returned. *)
Theorem WriteFile_result (o : WriteFileOption) (st : Outputs)
    (ctx : GenerationContext) (root : Package) (body headerText : string)
    (sink : WriteCloser) :
  Ctx o = Some ctx → Root o = Some root → Buffer o = Some body →
  header_of o ctx = inr headerText →
  ctx_Open ctx root (Filename o) = inr sink →
  let text := assembled headerText (CmdName o) body in
  let out := match format_Source text with inr f => f | inl _ => text end in
  ∃ res st',
    WriteFile format_Source o st = Ok (res, st') ∧
    (res = None ↔
       (wc_Write sink out).2 = None ∧ (String.length out ≤ (wc_Write sink out).1)%nat) ∧
    ((wc_Write sink out).2 = None → ((wc_Write sink out).1 < String.length out)%nat →
       res = Some ErrShortWrite) ∧
    (∀ werr, (wc_Write sink out).2 = Some werr → res = Some werr) ∧
    (∀ cerr, wc_Close sink = Some cerr → cerr ∈ root_errors st').
Proof.
  intros Hctx Hroot Hbuf Hh Hopen text out.
  rewrite (WriteFile_opened o st ctx root body headerText sink) by done.
  fold text. fold out. eexists _, _. split; [reflexivity|].
  destruct (wc_Write sink out) as [n [werr|]]; simpl.
  - split; [split; [done|by intros [? _]]|]. split; [done|].
    split; [by intros ? [= ->]|]. intros cerr ->. simpl. set_solver.
  - destruct (Nat.ltb_spec n (String.length out)).
    + split; [split; [done|intros [_ ?]; lia]|]. split; [done|].
      split; [done|]. intros cerr ->. simpl. set_solver.
    + split; [split; [intros _; split; [done|simpl; lia]|done]|]. split; [intros _ ?; simpl in *; lia|].
      split; [done|]. intros cerr ->. simpl. set_solver.
Qed.

(** X4. Failures before the file is opened: an unreadable header file is
    returned at once, nothing else having happened; a failure of [Open] is
    returned with no file touched.  Without a header file, a missing
    context, root package or buffer makes [WriteFile] panic. *)
Theorem WriteFile_early_failures (o : WriteFileOption) (st : Outputs) :
  (∀ ctx err,
     HeaderFile o ≠ "" → Ctx o = Some ctx →
     ctx_ReadFile ctx (HeaderFile o) = inl err →
     WriteFile format_Source o st = Ok (Some err, st)) ∧
  (∀ ctx root body headerText err,
     Ctx o = Some ctx → Root o = Some root → Buffer o = Some body →
     header_of o ctx = inr headerText →
     ctx_Open ctx root (Filename o) = inl err →
     ∃ st', WriteFile format_Source o st = Ok (Some err, st') ∧
            file_events st' = file_events st) ∧
  (HeaderFile o = "" → Ctx o = None ∨ Root o = None ∨ Buffer o = None →
     WriteFile format_Source o st = Panic nil_dereference).
Proof.
  split; [|split].
  - intros ctx err Hh Hctx Hread. unfold WriteFile.
    rewrite bool_decide_eq_false_2 by done. by rewrite Hctx, Hread.
  - intros ctx root body headerText err Hctx Hroot Hbuf Hh Hopen.
    unfold WriteFile, header_of in *. rewrite Hctx, Hroot, Hbuf.
    destruct (bool_decide (HeaderFile o = "")).
    + injection Hh as <-. rewrite Hopen. eexists. split; [reflexivity|].
      by destruct (format_Source _).
    + rewrite Hh, Hopen. eexists. split; [reflexivity|].
      by destruct (format_Source _).
  - intros Hh Hnil. unfold WriteFile. rewrite bool_decide_eq_true_2 by done.
    destruct (Root o) as [root|]; [|done].
    destruct (Buffer o) as [body|]; [|done].
    destruct (Ctx o) as [ctx|]; [|done].
    by destruct Hnil as [?|[?|?]].
Qed.

End WriteFileFacts.

(** ** Writing the demo file *)

Lemma WriteFile_closes_what_it_opens_demo :
  let o := options_on (context_on full_sink) in
  WriteFile accepting_format o no_outputs = Ok (None, written_once) ∧
  ∃ root out n,
    Root o = Some root ∧
    file_events written_once =
      (file_events no_outputs ++ [FileOpened (pkg_Name root) (Filename o);
                                  FileWritten (Filename o) out n;
                                  FileClosed (Filename o)])%list.
Proof.
  assert (WriteFile accepting_format (options_on (context_on full_sink)) no_outputs =
            Ok (None, written_once)) as Hrun by reflexivity.
  split; [exact Hrun|].
  destruct (WriteFile_closes_what_it_opens accepting_format
              (options_on (context_on full_sink)) no_outputs written_once None Hrun)
    as [[_ [e He]]|Hopened]; [discriminate He|exact Hopened].
Defined.

Lemma WriteFile_format_failure_demo :
  let o := options_on (context_on full_sink) in
  ∃ res st',
    WriteFile rejecting_format o no_outputs = Ok (res, st') ∧
    file_events st' =
      ([] ++ [FileOpened "obj" (Filename o);
              FileWritten (Filename o) demo_text (String.length demo_text);
              FileClosed (Filename o)])%list ∧
    errorString 9 "expected declaration" ∈ root_errors st' ∧
    (wc_Write full_sink demo_text = (String.length demo_text, None) → res = None).
Proof.
  apply (WriteFile_format_failure rejecting_format (options_on (context_on full_sink))
           no_outputs (context_on full_sink) {| pkg_Name := "obj" |} "package obj" ""
           full_sink (errorString 9 "expected declaration"));
    reflexivity.
Defined.

Lemma WriteFile_result_demo :
  let o := options_on (context_on stuck_sink) in
  let out := assembled "" "demo" "package obj" in
  ∃ res st',
    WriteFile accepting_format o no_outputs = Ok (res, st') ∧
    (res = None ↔
       (wc_Write stuck_sink out).2 = None ∧
       (String.length out ≤ (wc_Write stuck_sink out).1)%nat) ∧
    ((wc_Write stuck_sink out).2 = None →
     ((wc_Write stuck_sink out).1 < String.length out)%nat →
       res = Some ErrShortWrite) ∧
    (∀ werr, (wc_Write stuck_sink out).2 = Some werr → res = Some werr) ∧
    (∀ cerr, wc_Close stuck_sink = Some cerr → cerr ∈ root_errors st').
Proof.
  apply (WriteFile_result accepting_format (options_on (context_on stuck_sink))
           no_outputs (context_on stuck_sink) {| pkg_Name := "obj" |} "package obj" ""
           stuck_sink);
    reflexivity.
Defined.

Lemma WriteFile_early_failures_demo :
  ∃ st', WriteFile accepting_format (options_on closed_context) no_outputs =
           Ok (Some (errorString 7 "cannot open"), st') ∧
         file_events st' = file_events no_outputs.
Proof.
  apply (proj1 (proj2 (WriteFile_early_failures accepting_format
                         (options_on closed_context) no_outputs))
           closed_context {| pkg_Name := "obj" |} "package obj" "");
    reflexivity.
Defined.

(** * The scaffolding tool *)

Section SplitFacts.
Import Scaffold.

Lemma chars_app a b : chars (a +:+ b) = (chars a ++ chars b)%list.
Proof. induction a as [|x a IH]; simpl; [done|]. by rewrite IH. Qed.

Lemma chars_inj a b : chars a = chars b → a = b.
Proof.
  revert b. induction a as [|x a IH]; intros [|y b]; simpl; try done.
  intros [= -> Hab]. by rewrite (IH _ Hab).
Qed.

Lemma chars_nil s : chars s = [] ↔ s = "".
Proof. by destruct s. Qed.

Lemma Split_nonempty s sep : Split s sep ≠ [].
Proof.
  induction s as [|a t IH]; simpl; [done|].
  case_bool_decide; [done|]. by destruct (Split t sep).
Qed.

(** Joining the pieces gives the string back. *)
Lemma Join_Split s sep : Join (Split s sep) sep = s.
Proof.
  induction s as [|a t IH]; simpl; [done|].
  case_bool_decide as Ha.
  - subst a. pose proof (Split_nonempty t sep) as Hne.
    destruct (Split t sep) as [|p rest]; [done|].
    cbn [Join]. simpl. by rewrite <- IH.
  - pose proof (Split_nonempty t sep) as Hne.
    destruct (Split t sep) as [|p rest]; [done|].
    rewrite <- IH. by destruct rest.
Qed.

(** No piece holds the separator. *)
Lemma Split_pieces s sep : Forall (fun p => sep ∉ chars p) (Split s sep).
Proof.
  induction s as [|a t IH]; simpl.
  - repeat constructor. set_solver.
  - case_bool_decide as Ha.
    + constructor; [set_solver|done].
    + destruct (Split t sep) as [|p rest]; [repeat constructor; set_solver|].
      apply Forall_cons in IH as [Hp Hrest]. constructor; [|done].
      simpl. set_solver.
Qed.

Lemma Split_no_sep s sep : sep ∉ chars s → Split s sep = [s].
Proof.
  induction s as [|a t IH]; simpl; [done|]. intros Hn.
  rewrite bool_decide_eq_false_2 by set_solver.
  rewrite IH by set_solver. done.
Qed.

Lemma Split_cons p rest sep :
  sep ∉ chars p → rest ≠ [] →
  Split (Join (p :: rest) sep) sep = p :: Split (Join rest sep) sep.
Proof.
  intros Hp Hrest. destruct rest as [|q rest]; [done|]. cbn [Join].
  induction p as [|a p IH]; simpl.
  - by rewrite bool_decide_eq_true_2 by done.
  - rewrite bool_decide_eq_false_2 by set_solver.
    simpl in IH. rewrite IH by set_solver. done.
Qed.

(** Splitting a join of pieces free of the separator gives the pieces. *)
Lemma Split_Join pieces sep :
  pieces ≠ [] → Forall (fun p => sep ∉ chars p) pieces →
  Split (Join pieces sep) sep = pieces.
Proof.
  intros Hne Hall. induction Hall as [|p rest Hp Hrest IH]; [done|].
  destruct rest as [|q rest].
  - simpl. by apply Split_no_sep.
  - rewrite Split_cons by done. by rewrite IH.
Qed.

End SplitFacts.

Section ParseFacts.
Import Scaffold.
Variable Quote : string → string.
Variable initGeneratorsUsage : string.
Variable Stat : string → option ToolError.

Lemma chars_shown g :
  chars (shown g) = (chars (gen_name g) ++ colon :: chars (gen_path g))%list.
Proof. unfold shown. by rewrite chars_app. Qed.

Lemma Split_shown g :
  colon ∉ chars (gen_name g) → colon ∉ chars (gen_path g) →
  Split (shown g) colon = [gen_name g; gen_path g].
Proof.
  intros Hn Hp.
  change (shown g) with (Join [gen_name g; gen_path g] colon).
  apply Split_Join; [done|]. by repeat constructor.
Qed.

Lemma parse_inputs_inr perr inputs acc gens :
  parse_inputs Stat perr inputs acc = inr gens →
  ∃ new, gens = (acc ++ new)%list ∧ Forall2 (parsed_from Stat) inputs new.
Proof.
  revert acc. induction inputs as [|input rest IH]; intros acc; simpl.
  - intros [= <-]. exists []. by rewrite app_nil_r.
  - pose proof (Join_Split input colon) as Hjoin.
    pose proof (Split_pieces input colon) as Hpieces.
    destruct (Split input colon) as [|a [|b [|c sl]]]; simpl; try done.
    case_bool_decide as Ha; [done|]. case_bool_decide as Hb; [done|].
    destruct (fileShouldNotExist Stat b) eqn:Hfile; [done|].
    intros (new & -> & Hnew)%IH.
    exists ({| gen_name := a; gen_path := b |} :: new).
    rewrite <- app_assoc. split; [done|]. constructor; [|done].
    apply Forall_cons in Hpieces as [Hca Hpieces].
    apply Forall_cons in Hpieces as [Hcb _].
    by repeat split.
Qed.

Lemma parse_inputs_shown perr gens acc :
  Forall (fun g => parsed_from Stat (shown g) g) gens →
  parse_inputs Stat perr (shown <$> gens) acc = inr (acc ++ gens)%list.
Proof.
  intros Hall. revert acc. induction Hall as [|g gens Hg _ IH]; intros acc.
  - by rewrite app_nil_r.
  - destruct Hg as (_ & Hn & Hp & Hcn & Hcp & Hfile).
    cbn [fmap list_fmap parse_inputs]. rewrite Split_shown by done. simpl.
    rewrite !bool_decide_eq_false_2 by done. rewrite Hfile.
    fold (fmap shown gens). rewrite IH, <- app_assoc. by destruct g.
Qed.

Lemma colon_is_not_comma : colon ≠ comma.
Proof. done. Qed.

Lemma fileShouldNotExist_None path :
  fileShouldNotExist Stat path = None ↔
  ∃ err, Stat path = Some err ∧ Is_NotExist err = true.
Proof.
  unfold fileShouldNotExist.
  destruct (Stat path) as [err|]; [|split; [done|by intros (? & ? & ?)]].
  destruct (Is_NotExist err) eqn:His; simpl.
  - split; [eauto|done].
  - split; [done|]. intros (e & [= <-] & ?). congruence.
Qed.

(** X5. [parseGeneratorsAndValidate] accepts exactly the comma-separated lists
    of [name:path] pairs, at least one, in which every name and path is
    not empty and holds neither a colon nor a comma, and [os.Stat] of every
    path fails with an error that is [os.ErrNotExist]; it returns the
    pairs in order. *)
Theorem parseGeneratorsAndValidate_accepts (s : string) (gens : list generatorFlag) :
  parseGeneratorsAndValidate Quote initGeneratorsUsage Stat s = inr gens ↔
  gens ≠ [] ∧ Forall (acceptable Stat) gens ∧ s = Join (shown <$> gens) comma.
Proof.
  unfold parseGeneratorsAndValidate. split.
  - destruct (parse_inputs _ _ _ _) as [e|gs] eqn:Hparse; [done|].
    destruct gs as [|g gs]; [done|]. simpl. intros [= <-].
    apply parse_inputs_inr in Hparse as (new & Hnew & Hall). simpl in Hnew. subst new.
    split; [done|].
    pose proof (Split_pieces s comma) as Hpieces.
    pose proof (Join_Split s comma) as Hjoin.
    assert (Split s comma = shown <$> (g :: gs)) as Heq.
    { clear -Hall. induction Hall as [|x y xs ys [-> _] _ IH]; [done|].
      cbn [fmap list_fmap]. by f_equal. }
    rewrite Heq in Hjoin, Hpieces. split; [|done].
    clear -Hall Hpieces. revert Hpieces.
    induction Hall as [|x y xs ys (-> & Hn & Hp & Hcn & Hcp & Hfile) _ IH]; [done|].
    cbn [fmap list_fmap]. intros [Hy Hrest]%Forall_cons.
    constructor; [|by apply IH].
    rewrite chars_shown in Hy. apply fileShouldNotExist_None in Hfile.
    assert ((comma ∉ chars (gen_name y)) ∧ (comma ∉ chars (gen_path y))) as [? ?]
      by set_solver.
    by repeat split.
  - intros (Hne & Hall & ->).
    assert (Forall (fun p => comma ∉ chars p) (shown <$> gens)) as Hcomma.
    { apply Forall_fmap. eapply Forall_impl; [exact Hall|].
      intros g (_ & _ & ? & ? & ? & ? & _). simpl. rewrite chars_shown.
      pose proof colon_is_not_comma. set_solver. }
    rewrite Split_Join by (try done; by destruct gens).
    rewrite parse_inputs_shown.
    + simpl. by destruct gens.
    + eapply Forall_impl; [exact Hall|].
      intros g (? & ? & ? & ? & ? & ? & Hstat).
      apply fileShouldNotExist_None in Hstat. by repeat split.
Qed.

(** X6. The empty value of the flag is rejected, and so the list returned is
    never empty: the final check of the function cannot fire. *)
Theorem parseGeneratorsAndValidate_empty_flag :
  parseGeneratorsAndValidate Quote initGeneratorsUsage Stat "" =
    inl (errors_Join [expect_two; parseGeneratorsErr Quote initGeneratorsUsage ""]) ∧
  ∀ s gens, parse_inputs Stat (parseGeneratorsErr Quote initGeneratorsUsage s)
              (Split s comma) [] = inr gens → gens ≠ [].
Proof.
  split; [done|].
  intros s gens (new & -> & Hall)%parse_inputs_inr.
  pose proof (Split_nonempty s comma) as Hne.
  destruct Hall; [done|]. done.
Qed.

End ParseFacts.

Section RunEFacts.
Import Scaffold.
Variable Quote : string → string.
Variable initGeneratorsUsage : string.
Variable Stat : string → option ToolError.
Variable outcome : Generation → option ToolError.

Lemma parseGeneratorsAndValidate_nonempty s gens :
  parseGeneratorsAndValidate Quote initGeneratorsUsage Stat s = inr gens →
  (length gens =? 0)%nat = false.
Proof.
  unfold parseGeneratorsAndValidate.
  destruct (parse_inputs _ _ _ _) as [e|gs]; [done|].
  destruct (length gs =? 0)%nat eqn:Hl; [done|]. by intros [= <-].
Qed.

(** X7. [runE] never generates a command alone.  Without the generators
    flag it fails on parsing, whatever the cmd flag is, and generates
    nothing; and whatever the two flags are, every call it makes to
    generate a command comes with at least one generator. *)
Theorem runE_never_generates_cmd_alone (initCmd initGenerators : string)
    (log : list Generation) :
  runE Quote initGeneratorsUsage Stat outcome initCmd "" log =
    (Some (errors_Join [expect_two; parseGeneratorsErr Quote initGeneratorsUsage ""]), log) ∧
  ∃ new,
    (runE Quote initGeneratorsUsage Stat outcome initCmd initGenerators log).2 =
      (log ++ new)%list ∧
    ∀ cmd gens, CmdWithGenerators cmd gens ∈ new → gens ≠ [].
Proof.
  split; [unfold runE, parseCmdAndValidate; by case_bool_decide|].
  unfold runE, parseCmdAndValidate.
  destruct (parseGeneratorsAndValidate _ _ _ initGenerators) as [e|gens] eqn:Hparse.
  { exists []. rewrite app_nil_r. split; [by case_bool_decide|].
    by intros ?? ?%elem_of_nil. }
  pose proof (parseGeneratorsAndValidate_nonempty _ _ Hparse) as Hlen.
  assert (gens ≠ []) as Hne by (by destruct gens).
  case_bool_decide.
  - exists [GeneratorWithCmdName gens ""]. split; [done|].
    by intros ?? ?%list_elem_of_singleton.
  - rewrite Hlen. unfold generateGeneratorWithCmdName, generateCmdWithGenerators. simpl.
    destruct (outcome (GeneratorWithCmdName _ _)); simpl.
    + exists [GeneratorWithCmdName gens initCmd]. split; [done|].
      by intros ?? ?%list_elem_of_singleton.
    + exists [GeneratorWithCmdName gens initCmd;
              CmdWithGenerators {| cmd_name := initCmd; cmd_path := "cmd/" +:+ initCmd |} gens].
      split; [destruct (outcome (CmdWithGenerators _ _)); simpl; by rewrite <- app_assoc|].
      intros cmd gs [?|[[= _ ->]|?%elem_of_nil]%elem_of_cons]%elem_of_cons; done.
Qed.

(** X8. Once the generators flag parses: without a cmd flag the generators are
    generated under no command name; with one, the generators are
    generated first, under the command's name, and the command's
    [main.go] (in [cmd/<name>]) only if that succeeded. *)
Theorem runE_generation_order (initCmd initGenerators : string)
    (gens : list generatorFlag) (log : list Generation) :
  parseGeneratorsAndValidate Quote initGeneratorsUsage Stat initGenerators = inr gens →
  let cmd := {| cmd_name := initCmd; cmd_path := "cmd/" +:+ initCmd |} in
  let run := runE Quote initGeneratorsUsage Stat outcome initCmd initGenerators log in
  gens ≠ [] ∧
  (initCmd = "" →
     run = (outcome (GeneratorWithCmdName gens ""),
            (log ++ [GeneratorWithCmdName gens ""])%list)) ∧
  (initCmd ≠ "" → ∀ err,
     outcome (GeneratorWithCmdName gens initCmd) = Some err →
     run = (Some err, (log ++ [GeneratorWithCmdName gens initCmd])%list)) ∧
  (initCmd ≠ "" →
     outcome (GeneratorWithCmdName gens initCmd) = None →
     run = (outcome (CmdWithGenerators cmd gens),
            (log ++ [GeneratorWithCmdName gens initCmd; CmdWithGenerators cmd gens])%list)).
Proof.
  intros Hparse cmd run. pose proof (parseGeneratorsAndValidate_nonempty _ _ Hparse) as Hlen.
  subst run. unfold runE, parseCmdAndValidate. rewrite Hparse.
  split; [by destruct gens|].
  split; [|split].
  - intros ->. done.
  - intros Hc err Herr. rewrite bool_decide_eq_false_2 by done. rewrite Hlen.
    unfold generateGeneratorWithCmdName. simpl. by rewrite Herr.
  - intros Hc Hok. rewrite bool_decide_eq_false_2 by done. rewrite Hlen.
    unfold generateGeneratorWithCmdName, generateCmdWithGenerators. simpl. rewrite Hok.
    rewrite <- app_assoc. subst cmd. destruct (outcome (CmdWithGenerators _ _)); reflexivity.
Qed.

End RunEFacts.

Section TitledNames.
Import Scaffold.
Variable Quote : string → string.
Variable initGeneratorsUsage : string.
Variable Stat : string → option ToolError.
Variable To_UpperCase : Z → Z.

(** X9. The generation functions call [genutils.Title] on the name of every
    generator, and [Title] panics on the empty string: the names the parser
    lets through are never empty, so these calls all return. *)
Theorem accepted_names_can_be_titled (s : string) (gens : list generatorFlag) :
  parseGeneratorsAndValidate Quote initGeneratorsUsage Stat s = inr gens →
  Forall (fun g => ∃ t, Title To_UpperCase (gen_name g) = Ok t ∧ t ≠ "") gens.
Proof.
  unfold parseGeneratorsAndValidate.
  destruct (parse_inputs _ _ _ _) as [e|gs] eqn:Hparse; [done|].
  destruct (length gs =? 0)%nat; [done|]. intros [= <-].
  apply parse_inputs_inr in Hparse as (new & -> & Hall). simpl.
  induction Hall as [|input g inputs new (_ & Hname & _) _ IH]; constructor; [|done].
  unfold Title. destruct (runes (gen_name g)) as [|r0 rest] eqn:Hrunes.
  { by apply runes_nil in Hrunes. }
  eexists. split; [reflexivity|].
  unfold string_of_runes. cbn [fmap list_fmap concat].
  pose proof (encoderune_nonempty (ToUpper To_UpperCase r0)) as Hne.
  by destruct (encoderune (ToUpper To_UpperCase r0)).
Qed.

End TitledNames.

(** ** The scaffolding tool, evaluated *)

Section ScaffoldDemo.
Import Scaffold.

Lemma parseGeneratorsAndValidate_accepts_demo :
  two_generators ≠ [] ∧ Forall (acceptable empty_disk) two_generators ∧
  "a:x,b:y" = Join (shown <$> two_generators) comma.
Proof.
  apply (proj1 (parseGeneratorsAndValidate_accepts plain_Quote "usage" empty_disk
                  "a:x,b:y" two_generators)).
  reflexivity.
Defined.

Lemma parseGeneratorsAndValidate_empty_flag_demo : two_generators ≠ [].
Proof.
  apply (proj2 (parseGeneratorsAndValidate_empty_flag plain_Quote "usage" empty_disk)
           "a:x,b:y" two_generators).
  reflexivity.
Defined.

Lemma runE_generation_order_demo :
  let cmd := {| cmd_name := "tool"; cmd_path := "cmd/tool" |} in
  runE plain_Quote "usage" empty_disk all_succeed "tool" "a:x,b:y" [] =
    (None, [GeneratorWithCmdName two_generators "tool";
            CmdWithGenerators cmd two_generators]).
Proof.
  apply (proj2 (proj2 (proj2 (runE_generation_order plain_Quote "usage" empty_disk
                                all_succeed "tool" "a:x,b:y" two_generators []
                                eq_refl))));
    [discriminate|reflexivity].
Defined.

Lemma runE_never_generates_cmd_alone_demo :
  ∃ new,
    (runE plain_Quote "usage" empty_disk all_succeed "tool" "a:x,b:y" []).2 =
      ([] ++ new)%list ∧
    ∀ cmd gens, CmdWithGenerators cmd gens ∈ new → gens ≠ [].
Proof.
  apply (proj2 (runE_never_generates_cmd_alone plain_Quote "usage" empty_disk all_succeed
                  "tool" "a:x,b:y" [])).
Defined.

Lemma accepted_names_can_be_titled_demo :
  Forall (fun g => ∃ t, Title ascii_only_upper (gen_name g) = Ok t ∧ t ≠ "") two_generators.
Proof.
  apply (accepted_names_can_be_titled plain_Quote "usage" empty_disk ascii_only_upper
           "a:x,b:y" two_generators).
  reflexivity.
Defined.

(** A path whose [os.Stat] fails for another reason than its absence is
    turned down with that error, though no such file exists. *)
Example stat_failure_is_rejected :
  parseGeneratorsAndValidate plain_Quote "usage" locked_disk "a:x" =
    inl (errors_Join [PathError "stat" "x" (TextError "permission denied");
                      parseGeneratorsErr plain_Quote "usage" "a:x"]).
Proof. reflexivity. Qed.

End ScaffoldDemo.

(** * File names *)

Section GeneratedFilenameFacts.
Import Scaffold.

Lemma split_at_first {A} (x : A) l1 r1 l2 r2 :
  x ∉ l1 → x ∉ l2 → (l1 ++ x :: r1 = l2 ++ x :: r2)%list → l1 = l2 ∧ r1 = r2.
Proof.
  revert l2. induction l1 as [|a l1 IH]; intros [|b l2] H1 H2; simpl.
  - by intros [= ->].
  - intros [= <- _]. set_solver.
  - intros [= -> _]. set_solver.
  - intros [= -> Heq]. destruct (IH l2) as [-> ->]; [set_solver..|done|done].
Qed.

Lemma chars_GeneratedFilename prefix name :
  chars (GeneratedFilename prefix name) =
    (chars "zz_generated." ++ chars prefix ++ dot :: chars name ++ chars ".go")%list.
Proof. unfold GeneratedFilename. by rewrite !chars_app. Qed.

(** X10. For one prefix distinct names give distinct file names; so do
    distinct pairs when the prefixes hold no dot; with a dot in the prefix
    two pairs can meet. *)
Theorem GeneratedFilename_distinct :
  (∀ prefix n1 n2,
     GeneratedFilename prefix n1 = GeneratedFilename prefix n2 → n1 = n2) ∧
  (∀ p1 p2 n1 n2,
     dot ∉ chars p1 → dot ∉ chars p2 →
     GeneratedFilename p1 n1 = GeneratedFilename p2 n2 → p1 = p2 ∧ n1 = n2) ∧
  GeneratedFilename "a.b" "c" = GeneratedFilename "a" "b.c".
Proof.
  split; [|split; [|done]].
  - intros prefix n1 n2 H. apply (f_equal chars) in H.
    rewrite !chars_GeneratedFilename in H.
    apply app_inv_head, app_inv_head in H. injection H as H.
    apply app_inv_tail in H. by apply chars_inj.
  - intros p1 p2 n1 n2 H1 H2 H. apply (f_equal chars) in H.
    rewrite !chars_GeneratedFilename in H. apply app_inv_head in H.
    apply split_at_first in H as [Hp Hn]; [|done..].
    apply app_inv_tail in Hn. split; by apply chars_inj.
Qed.

End GeneratedFilenameFacts.

(** * The handler and the command, beyond the claims *)

Section DispatchFacts.
Context `{engine : Engine} `{order : RangeOrder}.

Lemma write_error s b (w w' : World) e :
  write s b w = (Some e, w') → stream_fault s w = Some e ∧ w' = w.
Proof. unfold write. destruct (stream_fault s w); by intros [= <- <-]. Qed.

Lemma summary_loop_error errOut helpInfo (w w' : World) e :
  summary_loop errOut helpInfo w = (Some e, w') → stream_fault errOut w' = Some e.
Proof.
  revert w. induction helpInfo as [|cat rest IH]; intros w; simpl; [done|].
  case_bool_decide; [apply IH|]. unfold io_bind.
  destruct (write errOut _ w) as [[e1|] w1] eqn:Hw.
  - intros [= <- <-]. by apply write_error in Hw as [? ->].
  - apply IH.
Qed.

Lemma details_loop_error errOut fullDetail helpInfo (w w' : World) e :
  details_loop errOut fullDetail helpInfo w = (Some e, w') → stream_fault errOut w' = Some e.
Proof.
  revert w. induction helpInfo as [|cat rest IH]; intros w; simpl; [done|].
  case_bool_decide; [apply IH|]. unfold io_bind.
  destruct (write errOut _ w) as [[e1|] w1] eqn:Hw.
  - intros [= <- <-]. by apply write_error in Hw as [? ->].
  - apply IH.
Qed.

Lemma write_faults s b (w : World) :
  stdout_fault (write s b w).2 = stdout_fault w ∧
  stderr_fault (write s b w).2 = stderr_fault w.
Proof. unfold write. destruct (stream_fault s w); [done|]. by destruct s. Qed.

Lemma summary_loop_faults errOut helpInfo (w : World) :
  stdout_fault (summary_loop errOut helpInfo w).2 = stdout_fault w ∧
  stderr_fault (summary_loop errOut helpInfo w).2 = stderr_fault w.
Proof.
  revert w. induction helpInfo as [|cat rest IH]; intros w; simpl; [done|].
  case_bool_decide; [apply IH|]. unfold io_bind.
  pose proof (write_faults errOut (MarkersSummary (cat_Category cat) (cat_Markers cat)) w)
    as [H1 H2].
  destruct (write errOut _ w) as [[e1|] w1]; simpl in *; [done|].
  destruct (IH w1) as [-> ->]. done.
Qed.

Lemma details_loop_faults errOut fullDetail helpInfo (w : World) :
  stdout_fault (details_loop errOut fullDetail helpInfo w).2 = stdout_fault w ∧
  stderr_fault (details_loop errOut fullDetail helpInfo w).2 = stderr_fault w.
Proof.
  revert w. induction helpInfo as [|cat rest IH]; intros w; simpl; [done|].
  case_bool_decide; [apply IH|]. unfold io_bind.
  pose proof (write_faults errOut
                (MarkersDetails fullDetail (cat_Category cat) (cat_Markers cat)) w)
    as [H1 H2].
  destruct (write errOut _ w) as [[e1|] w1]; simpl in *; [done|].
  destruct (IH w1) as [-> ->]. done.
Qed.

(** An error of [helpForLevels] is the fault of one of its two streams. *)
Lemma helpForLevels_error level reg sorter (w w' : World) e :
  helpForLevels Stdout Stderr level reg sorter w = (Some e, w') →
  stdout_fault w = Some e ∨ stderr_fault w = Some e.
Proof.
  unfold helpForLevels.
  destruct (level =? jsonHelp)%nat.
  { intros [? _]%write_error. by left. }
  destruct ((level =? detailedHelp)%nat || (level =? fullHelp)%nat).
  { intros H. pose proof (details_loop_faults Stderr (level =? fullHelp)%nat
                            (ByCategory reg sorter) w) as [_ Hf].
    rewrite H in Hf. apply details_loop_error in H. simpl in *. right. congruence. }
  destruct (level =? summaryHelp)%nat; [|done].
  intros H. pose proof (summary_loop_faults Stderr (ByCategory reg sorter) w) as [_ Hf].
  rewrite H in Hf. apply summary_loop_error in H. simpl in *. right. congruence.
Qed.

Lemma Usage_error c reg level (w w' : World) l e :
  Usage c reg level w = ((l, Some e), w') →
  stdout_fault w = Some e ∨ stderr_fault w = Some e.
Proof.
  unfold Usage, io_bind.
  destruct (write Stderr (UsageText _ _ _ _) w) as [[e1|] w1] eqn:H1.
  { intros [= <- <- <-]. apply write_error in H1 as [? _]. by right. }
  pose proof (write_faults Stderr (UsageText (name c) (description c) (description c)
                                     (helper c)) w) as [Ho1 He1].
  rewrite H1 in Ho1, He1. simpl in *.
  destruct (write Stderr OptionsHeader w1) as [[e2|] w2] eqn:H2.
  { intros [= <- <- <-]. apply write_error in H2 as [? _]. simpl in *. right. congruence. }
  pose proof (write_faults Stderr OptionsHeader w1) as [Ho2 He2].
  rewrite H2 in Ho2, He2. simpl in *.
  destruct (helpForLevels _ _ _ _ _ w2) as [[e3|] w3] eqn:H3; [|done].
  intros [= <- <- <-]. apply helpForLevels_error in H3 as [?|?]; [left|right]; congruence.
Qed.

Lemma errors_Is_innermost e :
  errors_Is e (noUsageError None) = true ↔ innermost e = noUsageError None.
Proof.
  induction e as [p text|p text inner IH|[x|]]; simpl; done.
Qed.

(** X11. The exit status is 0 exactly when [RunE] returned no error, and then
    [Run] returns to its caller having done nothing after [RunE]. *)
Theorem Run_exit_status (c : Cmd) (inv : Invocation) (h h' : Heap) (reg : Registry)
    (w : World) :
  register c h = Ok (tt, h') →
  registries h' !! markerRegistry c = Some reg →
  (exit_status (Run c inv h w).1 = 0%Z ↔ (RunE c reg inv w).1.2 = None) ∧
  ((RunE c reg inv w).1.2 = None → Run c inv h w = (Returned, (RunE c reg inv w).2)).
Proof.
  intros Hreg Hp.
  destruct (RunE c reg inv w) as [[level [e|]] w1] eqn:HRunE; simpl.
  - rewrite (Run_error _ _ _ _ _ _ _ _ _ Hreg Hp HRunE).
    split; [|done]. split; [|done]. intros H. by apply handle_nonzero in H.
  - assert (Run c inv h w = (Returned, w1)) as ->; [|done].
    unfold Run. rewrite Hreg, Hp. unfold io_bind, Execute, io_bind.
    by rewrite HRunE.
Qed.

(** X12. A run in which every generator succeeds: the options are resolved,
    the runtime is run once, nothing is written to either stream, and
    [Run] returns. *)
Theorem Run_generates_quietly (c : Cmd) (inv : Invocation) (h h' : Heap)
    (reg : Registry) (rt : Runtime) (w : World) :
  register c h = Ok (tt, h') →
  registries h' !! markerRegistry c = Some reg →
  showVersion inv = false → helpLevel inv = 0 → whichLevel inv = 0 →
  FromOptions reg (rawOpts inv) = inr rt →
  runtime_Generators rt ≠ [] →
  runtime_Run rt = false →
  Run c inv h w = (Returned, called w [CallFromOptions (rawOpts inv); CallRun rt]).
Proof.
  intros Hreg Hp Hv Hh Hw Hopt Hgens Hrun.
  unfold Run. rewrite Hreg, Hp. unfold io_bind, Execute, io_bind, RunE.
  rewrite Hv, Hh, Hw. simpl. unfold io_bind. simpl. rewrite Hopt.
  destruct (runtime_Generators rt) as [|g gs]; [done|]. simpl.
  rewrite Hrun. simpl. unfold called. simpl. by rewrite <- app_assoc.
Qed.

(** X13. An error of the option resolution is what [RunE] returns, on the
    generation path and on the marker-documentation path alike: no
    runtime is run, nothing is rendered, and the status is not 0. *)
Theorem option_errors_pass_through (c : Cmd) (inv : Invocation) (h h' : Heap)
    (reg : Registry) (w : World) (err : error) :
  register c h = Ok (tt, h') →
  registries h' !! markerRegistry c = Some reg →
  showVersion inv = false → helpLevel inv = 0 →
  (whichLevel inv = 0 → FromOptions reg (rawOpts inv) = inl err →
     RunE c reg inv w = ((0, Some err), called w [CallFromOptions (rawOpts inv)]) ∧
     engine_calls (Run c inv h w).2 =
       (engine_calls w ++ [CallFromOptions (rawOpts inv)])%list ∧
     exit_status (Run c inv h w).1 ≠ 0%Z) ∧
  (0 < whichLevel inv → RegistryFromOptions reg (rawOpts inv) = inl err →
     RunE c reg inv w = ((0, Some err), called w [CallRegistryFromOptions (rawOpts inv)]) ∧
     engine_calls (Run c inv h w).2 =
       (engine_calls w ++ [CallRegistryFromOptions (rawOpts inv)])%list ∧
     exit_status (Run c inv h w).1 ≠ 0%Z).
Proof.
  intros Hreg Hp Hv Hh. split.
  - intros Hw Hopt.
    assert (RunE c reg inv w =
            ((0, Some err), called w [CallFromOptions (rawOpts inv)])) as HRunE.
    { unfold RunE. rewrite Hv, Hh, Hw. simpl. unfold io_bind. simpl. by rewrite Hopt. }
    split; [done|].
    rewrite (Run_error _ _ _ _ _ _ _ _ _ Hreg Hp HRunE).
    split; [by rewrite handle_calls, print_calls|apply handle_nonzero].
  - intros Hw Hopt.
    assert (RunE c reg inv w =
            ((0, Some err), called w [CallRegistryFromOptions (rawOpts inv)])) as HRunE.
    { rewrite RunE_marker_docs by done. unfold printMarkerDocs, io_bind. simpl.
      by rewrite Hopt. }
    split; [done|].
    rewrite (Run_error _ _ _ _ _ _ _ _ _ Hreg Hp HRunE).
    split; [by rewrite handle_calls, print_calls|apply handle_nonzero].
Qed.

(** X14. The handler leaves the usage out exactly for an error whose [Unwrap]
    chain ends in the zero [noUsageError]; then it prints the hint alone.
    No error that [RunE] makes itself is of that kind: one that is comes
    from the option resolution or from a failing stream. *)
Theorem usage_suppressed_exactly (c : Cmd) (reg : Registry) (inv : Invocation)
    (w : World) (e : error) :
  (errors_Is e (noUsageError None) = true ↔ innermost e = noUsageError None) ∧
  (innermost e = noUsageError None → stderr_fault w = None →
     ∀ level, handle c reg inv (level, Some e) w =
                (Exited 1, wrote w [] [HintLine (name c) (os_Args inv)])) ∧
  ((RunE c reg inv w).1.2 = Some e → innermost e = noUsageError None →
     FromOptions reg (rawOpts inv) = inl e ∨
     RegistryFromOptions reg (rawOpts inv) = inl e ∨
     stdout_fault w = Some e ∨ stderr_fault w = Some e).
Proof.
  split; [apply errors_Is_innermost|]. split.
  - intros Hin Herr level. apply errors_Is_innermost in Hin.
    unfold handle, io_bind. simpl. rewrite Hin. simpl.
    by rewrite write_Stderr_working.
  - unfold RunE. destruct (showVersion inv).
    { unfold io_bind. by destruct (print Stdout VersionText w). }
    destruct (0 <? helpLevel inv)%nat.
    { destruct (Usage c reg (helpLevel inv) w) as [[l [e1|]] w1] eqn:HU; [|done].
      simpl. intros [= ->] _. apply Usage_error in HU. tauto. }
    destruct (0 <? whichLevel inv)%nat.
    { unfold io_bind, printMarkerDocs, io_bind. simpl.
      destruct (RegistryFromOptions reg (rawOpts inv)) as [e1|reg'].
      { simpl. intros [= ->]. tauto. }
      destruct (helpForLevels _ _ _ _ _ _) as [[e1|] w1] eqn:HH; [|done].
      simpl. intros [= ->] _. apply helpForLevels_error in HH. simpl in HH. tauto. }
    unfold io_bind. simpl.
    destruct (FromOptions reg (rawOpts inv)) as [e1|rt].
    { simpl. intros [= ->]. tauto. }
    destruct (length (runtime_Generators rt) =? 0)%nat.
    { simpl. by intros [= <-]. }
    simpl. destruct (runtime_Run rt); simpl; [|done]. by intros [= <-].
Qed.

(** X15. With a standard error that rejects every write, the handler panics
    with the write error when it tries to print the usage, writing
    nothing; when the usage is left out it exits with status 1. *)
Theorem handle_broken_stderr (c : Cmd) (reg : Registry) (inv : Invocation)
    (level : nat) (e f : error) (w : World) :
  stderr_fault w = Some f →
  (errors_Is e (noUsageError None) = false →
     handle c reg inv (level, Some e) w = (Panicked (PanicError f), w)) ∧
  (errors_Is e (noUsageError None) = true →
     handle c reg inv (level, Some e) w = (Exited 1, w)).
Proof.
  intros Hf. split; intros His; unfold handle, io_bind; simpl; rewrite His; simpl.
  - unfold Usage, io_bind, write. simpl. by rewrite Hf.
  - unfold write. simpl. by rewrite Hf.
Qed.

End DispatchFacts.

(** * Registration and builders, beyond the claims *)

Section RegistrationFacts.
Context `{engine : Engine}.

Lemma only_registry_refl p h : only_registry p h h.
Proof. done. Qed.

Lemma only_registry_trans p h1 h2 h3 :
  only_registry p h1 h2 → only_registry p h2 h3 → only_registry p h1 h3.
Proof.
  intros (? & ? & H12) (? & ? & H23). repeat split; [congruence..|].
  intros q Hq. by rewrite H23, H12.
Qed.

Lemma registry_Register_frame p def h err h' :
  registry_Register p def h = Ok (err, h') → only_registry p h h'.
Proof.
  unfold registry_Register. destruct (registries h !! p); [|done].
  destruct (Register _ _); intros [= <- <-]; [done|].
  repeat split. intros q Hq. simpl. by rewrite lookup_insert_ne.
Qed.

Lemma add_help_frame p def cap h h' :
  add_help p def cap h = Ok (tt, h') → only_registry p h h'.
Proof.
  destruct cap as [|[help|]]; simpl; try by intros [= <-].
  unfold registry_AddHelp. destruct (registries h !! p); [|done].
  intros [= <-]. repeat split. intros q Hq. simpl. by rewrite lookup_insert_ne.
Qed.

Lemma register_rule_frame g n rule h h' :
  register_rule g n rule h = Ok (tt, h') → only_registry (markerRegistry g) h h'.
Proof.
  unfold register_rule. intros H.
  apply bind_Ok in H as (def & h1 & HMust & H). apply Must_Ok in HMust as [_ ->].
  apply bind_Ok in H as (err & h2 & HReg & H).
  apply bind_Ok in H as ([] & h3 & Hpanic & H).
  apply panic_on_Ok in Hpanic as [-> [= <-]].
  apply registry_Register_frame in HReg. apply add_help_frame in H.
  by eapply only_registry_trans.
Qed.

Lemma for_range_frame {V} p (entries : list (string * V)) (body : string → V → Go unit) h h' :
  (∀ k v h1 h2, body k v h1 = Ok (tt, h2) → only_registry p h1 h2) →
  for_range entries body h = Ok (tt, h') → only_registry p h h'.
Proof.
  intros Hbody. revert h. induction entries as [|[k v] rest IH]; intros h; simpl.
  - by intros [= <-].
  - intros H. apply bind_Ok in H as ([] & h1 & Hfirst & Hrest).
    eapply only_registry_trans; [by eapply Hbody|by apply IH].
Qed.

Context `{order : RangeOrder}.

Lemma register_generator_frame g genName generator h h' :
  register_generator g genName generator h = Ok (tt, h') →
  only_registry (markerRegistry g) h h'.
Proof.
  unfold register_generator. intros H.
  apply bind_Ok in H as (def & h1 & HMust & H). apply Must_Ok in HMust as [_ ->].
  apply bind_Ok in H as (err & h2 & HReg & H).
  apply bind_Ok in H as ([] & h3 & Hpanic & H).
  apply panic_on_Ok in Hpanic as [-> [= <-]].
  apply bind_Ok in H as ([] & h4 & Hhelp & H).
  apply bind_Ok in H as (rules & h5 & [= <- <-] & H).
  apply registry_Register_frame in HReg. apply add_help_frame in Hhelp.
  apply (for_range_frame (markerRegistry g)) in H;
    [|intros ????; apply register_rule_frame].
  eauto using only_registry_trans.
Qed.

Lemma register_without_registry c h :
  registries h !! markerRegistry c = None → ∃ v, register c h = Panic v.
Proof.
  intros Hp. rewrite register_unfold. unfold bind at 1. unfold bind at 1.
  unfold read_gens at 1.
  destruct (range (gens_of h (generators c))) as [|[k g] rest]; simpl.
  - unfold bind at 1. unfold bind at 1. unfold read_rules at 1.
    destruct (range (rules_of h (outputRules c))) as [|[k r] rest]; simpl.
    + unfold bind, registry_RegisterOptionsMarkers. rewrite Hp. eauto.
    + unfold bind at 1. unfold register_rule at 1. unfold bind at 1.
      destruct (MakeDefinition _ _ _) as [e|def]; simpl; [eauto|].
      unfold bind at 1. unfold registry_Register at 1. rewrite Hp. eauto.
  - unfold bind at 1. unfold register_generator at 1. unfold bind at 1.
    destruct (MakeDefinition _ _ _) as [e|def]; simpl; [eauto|].
    unfold bind at 1. unfold registry_Register at 1. rewrite Hp. eauto.
Qed.

(** X16. [register] writes to the registry behind the [Cmd]'s pointer and to
    nothing else: the generator maps, the output-rule maps and every other
    registry are as they were. *)
Theorem register_touches_only_its_registry (c : Cmd) (h h' : Heap) :
  register c h = Ok (tt, h') →
  gen_maps h' = gen_maps h ∧ rule_maps h' = rule_maps h ∧
  (∀ q, q ≠ markerRegistry c → registries h' !! q = registries h !! q) ∧
  is_Some (registries h !! markerRegistry c) ∧
  is_Some (registries h' !! markerRegistry c).
Proof.
  intros Hreg.
  assert (is_Some (registries h !! markerRegistry c)) as Hbefore.
  { destruct (registries h !! markerRegistry c) eqn:Hp; [done|].
    destruct (register_without_registry c h Hp) as [v Hv]. congruence. }
  revert Hreg. rewrite register_unfold. intros H.
  apply bind_Ok in H as ([] & h1 & Hgens & H).
  apply bind_Ok in Hgens as (gens & h0 & [= <- <-] & Hgens).
  apply bind_Ok in H as ([] & h2 & Hrules & H).
  apply bind_Ok in Hrules as (rules & h0 & [= <- <-] & Hrules).
  apply bind_Ok in H as (err & h3 & Hopts & Hpanic).
  apply panic_on_Ok in Hpanic as [-> [= <-]].
  apply (for_range_frame (markerRegistry c)) in Hgens;
    [|intros ????; apply register_generator_frame].
  apply (for_range_frame (markerRegistry c)) in Hrules;
    [|intros ????; apply register_rule_frame].
  assert (only_registry (markerRegistry c) h2 h' ∧
          is_Some (registries h' !! markerRegistry c)) as (Hopt & Hafter).
  { unfold registry_RegisterOptionsMarkers in Hopts.
    destruct (registries h2 !! markerRegistry c) eqn:Hp; [|done].
    destruct (RegisterOptionsMarkers _); [done|]. injection Hopts as <-.
    split; [|simpl; rewrite lookup_insert_eq; eauto].
    repeat split. intros q Hq. simpl. by rewrite lookup_insert_ne. }
  destruct (only_registry_trans _ _ _ _ (only_registry_trans _ _ _ _ Hgens Hrules) Hopt)
    as (? & ? & ?).
  done.
Qed.

(** X17. A [Cmd] whose registry pointer leads to no registry, the zero [Cmd]
    among them, cannot be run: [Run] panics before anything is written or
    resolved; without generators and output rules the panic is the nil
    dereference. *)
Theorem Run_without_registry (c : Cmd) (inv : Invocation) (h : Heap) (w : World) :
  registries h !! markerRegistry c = None →
  (∃ v, Run c inv h w = (Panicked v, w)) ∧
  (gens_of h (generators c) = ∅ → rules_of h (outputRules c) = ∅ →
     Run c inv h w = (Panicked nil_dereference, w)).
Proof.
  intros Hp. split.
  - destruct (register_without_registry c h Hp) as [v Hv]. exists v.
    by apply register_panic_stops_Run.
  - intros Hg Hr. apply register_panic_stops_Run.
    assert (∀ V, range (∅ : gmap string V) = []) as Hnil.
    { intros V. apply Permutation_nil_r. rewrite range_perm. by rewrite map_to_list_empty. }
    rewrite register_unfold. unfold bind, read_gens, read_rules.
    rewrite Hg, Hnil. simpl. rewrite Hr, Hnil. simpl.
    unfold registry_RegisterOptionsMarkers. by rewrite Hp.
Qed.

End RegistrationFacts.

Section VisitingOrder.
Context `{engine : Engine}.

(** X18. The markers [register] leaves in the registry do not depend on the
    order in which the Go runtime visits the two maps. *)
Theorem register_order_independent (o1 o2 : RangeOrder) (c : Cmd) (h h1 h2 : Heap) :
  register (order := o1) c h = Ok (tt, h1) →
  register (order := o2) c h = Ok (tt, h2) →
  ∃ names, reg_names (markerRegistry c) h1 = Some names ∧
           reg_names (markerRegistry c) h2 = Some names.
Proof.
  intros H1 H2.
  destruct (registries h !! markerRegistry c) as [r0|] eqn:Hp.
  2: { destruct (register_without_registry (order := o1) c h Hp) as [v Hv]. congruence. }
  destruct (register_names_spec (order := o1) c h h1 r0 Hp H1) as (r1 & Hr1 & _ & Hn1).
  destruct (register_names_spec (order := o2) c h h2 r0 Hp H2) as (r2 & Hr2 & _ & Hn2).
  exists (marker_names r1). unfold reg_names. rewrite Hr1, Hr2. simpl.
  split; [done|]. f_equal. apply set_eq. intros n. by rewrite Hn1, Hn2.
Qed.

End VisitingOrder.

Section BuilderFacts.
Context `{engine : Engine} `{order : RangeOrder}.

(** X19. Configuration steps commute unless they write the same key: two
    generators under different names, two output rules under different
    names, a text and a map entry, two texts; a generator and an output
    rule once one order completes. *)
Theorem builder_steps_commute (b : Builder) (h : Heap) :
  (∀ k1 v1 k2 v2, k1 ≠ k2 →
     WithGenerator k1 v1 (WithGenerator k2 v2 b) h =
     WithGenerator k2 v2 (WithGenerator k1 v1 b) h) ∧
  (∀ k1 v1 k2 v2, k1 ≠ k2 →
     WithOutputRule k1 v1 (WithOutputRule k2 v2 b) h =
     WithOutputRule k2 v2 (WithOutputRule k1 v1 b) h) ∧
  (∀ d k v, WithDescription d (WithGenerator k v b) h =
            WithGenerator k v (WithDescription d b) h) ∧
  (∀ d x, WithDescription d (WithHelper x b) h = WithHelper x (WithDescription d b) h) ∧
  (∀ k v k' r res,
     WithGenerator k v (WithOutputRule k' r b) h = Ok res →
     WithOutputRule k' r (WithGenerator k v b) h = Ok res).
Proof.
  split; [|split; [|split; [|split]]].
  - intros k1 v1 k2 v2 Hk. unfold WithGenerator, bind.
    destruct (b h) as [[[n d x [|l] p rm] h1]|]; [done| |done].
    unfold gen_map_store. simpl.
    destruct (gen_maps h1 !! l) as [g|]; [|done]. simpl.
    rewrite !lookup_insert_eq. simpl. rewrite !insert_insert_eq.
    by rewrite (insert_insert_ne g k1 k2 v1 v2).
  - intros k1 v1 k2 v2 Hk. unfold WithOutputRule, bind.
    destruct (b h) as [[[n d x gm p [|l]] h1]|]; [done| |done].
    unfold rule_map_store. simpl.
    destruct (rule_maps h1 !! l) as [g|]; [|done]. simpl.
    rewrite !lookup_insert_eq. simpl. rewrite !insert_insert_eq.
    by rewrite (insert_insert_ne g k1 k2 v1 v2).
  - intros d k v. unfold WithDescription, WithGenerator, bind.
    destruct (b h) as [[c h1]|]; [|done]. simpl.
    by destruct (gen_map_store (generators c) k v h1) as [[[] h2]|].
  - intros d x. unfold WithDescription, WithHelper, bind.
    by destruct (b h) as [[c h1]|].
  - intros k v k' r res. unfold WithGenerator, WithOutputRule, bind.
    destruct (b h) as [[[n d x [|lg] p [|lr]] h1]|]; simpl; try done.
    { by destruct (rule_maps h1 !! lr). }
    destruct (rule_maps h1 !! lr) as [rs|] eqn:Hr; [|done]. simpl.
    destruct (gen_maps h1 !! lg) as [gs|] eqn:Hg; [|done]. simpl.
    by rewrite Hr.
Qed.

(** X20. A map replaced by nil reads as empty and cannot be written: adding
    an entry panics, and [register] then adds the engine's option markers
    alone. *)
Theorem nil_maps_read_empty (b : Builder) (h h1 : Heap) (c : Cmd) :
  b h = Ok (c, h1) →
  let b' := WithOutputRules nil_map (WithGenerators nil_map b) in
  (∀ k g, WithGenerator k g b' h = Panic nil_map_write) ∧
  (∀ k r, WithOutputRule k r b' h = Panic nil_map_write) ∧
  ∃ c', b' h = Ok (c', h1) ∧ markerRegistry c' = markerRegistry c ∧
    ∀ r0 h2,
      registries h1 !! markerRegistry c = Some r0 →
      register c' h1 = Ok (tt, h2) →
      reg_names (markerRegistry c) h2 = Some (option_markers ∪ marker_names r0).
Proof.
  intros Hb b'. subst b'.
  split; [|split].
  - intros k g. unfold WithGenerator, WithOutputRules, WithGenerators, bind.
    by rewrite Hb.
  - intros k r. unfold WithOutputRule, WithOutputRules, WithGenerators, bind.
    by rewrite Hb.
  - set (c' := {| name := name c; description := description c; helper := helper c;
                  generators := nil_map; markerRegistry := markerRegistry c;
                  outputRules := nil_map |}).
    exists c'. split; [unfold WithOutputRules, WithGenerators, bind; by rewrite Hb|].
    split; [done|]. intros r0 h2 Hp Hreg.
    destruct (register_names_spec c' h1 h2 r0 Hp Hreg) as (r' & Hr' & _ & Hn).
    simpl in Hr'. unfold reg_names. rewrite Hr'. simpl. f_equal.
    apply set_eq. intros n. rewrite Hn. simpl. set_solver.
Qed.

End BuilderFacts.

Section BuilderSteps.
Context `{engine : Engine} `{order : RangeOrder}.

(** X21. What a chain of steps from [New] configures.  [New] gives the name,
    empty texts, no generator, the two default output rules and an empty
    registry; on a builder assembled from [New] each further step changes
    its own field of that configuration and no other. *)
Theorem builder_step_changes_one_field :
  (∀ n h, ∃ c h',
     New n h = Ok (c, h') ∧
     configuration c h' =
       {| cfg_name := n; cfg_description := ""; cfg_helper := "";
          cfg_generators := ∅;
          cfg_outputRules := {[ "dir" := OutputToDirectory ""; "stdout" := OutputToStdout ]};
          cfg_registry := Some empty_Registry |}) ∧
  (∀ (b : Builder) h, fresh_builder b →
     ∃ c h', b h = Ok (c, h') ∧
       let cfg := configuration c h' in
       (∀ d, ∃ c1, WithDescription d b h = Ok (c1, h') ∧
          configuration c1 h' =
            {| cfg_name := cfg_name cfg; cfg_description := d; cfg_helper := cfg_helper cfg;
               cfg_generators := cfg_generators cfg; cfg_outputRules := cfg_outputRules cfg;
               cfg_registry := cfg_registry cfg |}) ∧
       (∀ x, ∃ c1, WithHelper x b h = Ok (c1, h') ∧
          configuration c1 h' =
            {| cfg_name := cfg_name cfg; cfg_description := cfg_description cfg;
               cfg_helper := x;
               cfg_generators := cfg_generators cfg; cfg_outputRules := cfg_outputRules cfg;
               cfg_registry := cfg_registry cfg |}) ∧
       (∀ k v, ∃ h1, WithGenerator k v b h = Ok (c, h1) ∧
          configuration c h1 =
            {| cfg_name := cfg_name cfg; cfg_description := cfg_description cfg;
               cfg_helper := cfg_helper cfg;
               cfg_generators := <[k := v]> (cfg_generators cfg);
               cfg_outputRules := cfg_outputRules cfg;
               cfg_registry := cfg_registry cfg |}) ∧
       (∀ k r, ∃ h1, WithOutputRule k r b h = Ok (c, h1) ∧
          configuration c h1 =
            {| cfg_name := cfg_name cfg; cfg_description := cfg_description cfg;
               cfg_helper := cfg_helper cfg;
               cfg_generators := cfg_generators cfg;
               cfg_outputRules := <[k := r]> (cfg_outputRules cfg);
               cfg_registry := cfg_registry cfg |})).
Proof.
  split.
  - intros n h. eexists _, _. split; [reflexivity|].
    unfold configuration; simpl. by rewrite !lookup_insert_eq.
  - intros b h Hfresh. destruct (fresh_builder_run b Hfresh) as [cfg0 Hrun].
    destruct (Hrun h) as (c & h' & lg & lo & Hb & _ & _ & Hg & Ho & _ & _ & [mg Hmg] & [mo Hmo]).
    exists c, h'. split; [done|]. intros cfg. subst cfg.
    split; [|split; [|split]].
    + intros d. unfold WithDescription, bind. rewrite Hb. by eexists.
    + intros x. unfold WithHelper, bind. rewrite Hb. by eexists.
    + intros k v. unfold WithGenerator, bind, gen_map_store. rewrite Hb, Hg, Hmg.
      eexists. split; [reflexivity|]. unfold configuration; simpl.
      rewrite Hg; simpl. by rewrite lookup_insert_eq, Hmg.
    + intros k r. unfold WithOutputRule, bind, rule_map_store. rewrite Hb, Ho, Hmo.
      eexists. split; [reflexivity|]. unfold configuration; simpl.
      rewrite Ho; simpl. by rewrite lookup_insert_eq, Hmo.
Qed.

End BuilderSteps.

(** * [Title], beyond the claim *)

Section TitleMore.
Local Open Scope Z_scope.
Variable To_UpperCase : Z → Z.

Lemma encoderune_sanitize r : encoderune (sanitize r) = encoderune r.
Proof.
  unfold sanitize. destruct (valid_rune r) eqn:Hv; [done|].
  unfold encoderune at 2. rewrite Hv.
  unfold valid_rune, MaxRune in Hv.
  destruct (Z.leb_spec 0 r), (Z.leb_spec r 0x7F), (Z.leb_spec r 0x7FF),
    (Z.leb_spec r 0x10FFFF), (Z.leb_spec 0xD800 r), (Z.leb_spec r 0xDFFF);
    simpl in *; try lia; try done.
Qed.

Lemma string_of_runes_sanitize rs : string_of_runes (sanitize <$> rs) = string_of_runes rs.
Proof.
  unfold string_of_runes. f_equal. f_equal.
  induction rs as [|r rs IH]; [done|]. cbn [fmap list_fmap].
  by rewrite encoderune_sanitize, IH.
Qed.

Lemma string_of_bytes_nil bs : string_of_bytes bs = "" → bs = [].
Proof. by destruct bs. Qed.

(** X22. What [Title] returns is well-formed UTF-8 (decoding and encoding it
    again changes nothing), is not empty, and has as many runes as the
    argument. *)
Theorem Title_well_formed (s t : string) :
  Title To_UpperCase s = Ok t →
  string_of_runes (runes t) = t ∧ t ≠ "" ∧ length (runes t) = length (runes s).
Proof.
  unfold Title. destruct (runes s) as [|r0 rest] eqn:Hs; [done|]. intros [= <-].
  rewrite runes_string_of_runes. split; [apply string_of_runes_sanitize|].
  split; [|by rewrite length_fmap].
  unfold string_of_runes. intros H%string_of_bytes_nil. cbn [fmap list_fmap concat] in H.
  apply app_eq_nil in H as [H _]. by apply encoderune_nonempty in H.
Qed.

Lemma runes_from_ascii bs :
  Forall (fun b => 0 <= b < 0x80) bs → runes_from 0 bs = bs.
Proof.
  induction 1 as [|b bs Hb _ IH]; [done|]. cbn [runes_from DecodeRune].
  destruct (Z.ltb_spec b 0x80); [|lia]. cbn [fst snd Nat.pred]. by rewrite IH.
Qed.

Lemma encode_ascii rs :
  Forall (fun r => 0 <= r < 0x80) rs → List.concat (encoderune <$> rs) = rs.
Proof.
  induction 1 as [|r rs Hr _ IH]; [done|]. cbn [fmap list_fmap concat].
  fold (fmap encoderune rs). rewrite IH. unfold encoderune.
  destruct (Z.leb_spec 0 r), (Z.leb_spec r 0x7F); simpl; try lia; done.
Qed.

Lemma ascii_of_byte_of a : ascii_of (byte_of a) = a.
Proof. unfold ascii_of, byte_of. by rewrite N2Z.id, ascii_N_embedding. Qed.

Lemma string_of_bytes_bytes s : string_of_bytes (bytes s) = s.
Proof. induction s as [|a s IH]; [done|]. simpl. by rewrite ascii_of_byte_of, IH. Qed.

Lemma ToUpper_below_128 r :
  0 <= r < 0x80 →
  ToUpper To_UpperCase r = if (97 <=? r) && (r <=? 122) then r - 32 else r.
Proof.
  intros Hr. unfold ToUpper, MaxASCII. by destruct (Z.leb_spec r 0x7F); [|lia].
Qed.

Lemma ToUpper_ascii r :
  0 <= r < 0x80 →
  0 <= ToUpper To_UpperCase r < 0x80 ∧
  ToUpper To_UpperCase (ToUpper To_UpperCase r) = ToUpper To_UpperCase r.
Proof.
  intros Hr. rewrite (ToUpper_below_128 r Hr).
  destruct (Z.leb_spec 97 r), (Z.leb_spec r 122); cbn [andb];
    (split; [lia|]); rewrite ToUpper_below_128 by lia.
  - by destruct (Z.leb_spec 97 (r - 32)), (Z.leb_spec (r - 32) 122); cbn [andb]; try lia.
  - by destruct (Z.leb_spec 97 r), (Z.leb_spec r 122); cbn [andb]; try lia.
  - by destruct (Z.leb_spec 97 r), (Z.leb_spec r 122); cbn [andb]; try lia.
  - by destruct (Z.leb_spec 97 r), (Z.leb_spec r 122); cbn [andb]; try lia.
Qed.

(** X23. On a string of ASCII bytes [Title] changes the first byte alone,
    whatever the case tables above ASCII are, and applying it twice is
    applying it once. *)
Theorem Title_ascii (a : ascii) (t : string) :
  Forall (fun b => b < 0x80) (bytes (String a t)) →
  let upper := String (ascii_of (ToUpper To_UpperCase (byte_of a))) t in
  Title To_UpperCase (String a t) = Ok upper ∧
  Title To_UpperCase upper = Ok upper.
Proof.
  intros Hascii upper.
  assert (Forall (fun b => 0 <= b < 0x80) (bytes (String a t))) as Hall.
  { pose proof (bytes_range (String a t)) as Hrange.
    rewrite Forall_forall in *. intros b Hb.
    specialize (Hrange b Hb). specialize (Hascii b Hb). simpl in *. lia. }
  pose proof Hall as [Ha Ht]%Forall_cons. fold bytes in Ht.
  destruct (ToUpper_ascii _ Ha) as [Hu Hidem].
  assert (∀ b, 0 <= b < 0x80 →
            Title To_UpperCase (String (ascii_of b) t) =
              Ok (String (ascii_of (ToUpper To_UpperCase b)) t)) as Hstep.
  { intros b Hb. unfold Title, runes. cbn [bytes].
    rewrite byte_of_ascii_of by lia.
    rewrite runes_from_ascii by (by constructor).
    unfold string_of_runes. destruct (ToUpper_ascii _ Hb) as [Hub _].
    rewrite encode_ascii by (by constructor).
    cbn [string_of_bytes]. by rewrite string_of_bytes_bytes. }
  split.
  - rewrite <- (ascii_of_byte_of a) at 1. by apply Hstep.
  - subst upper. rewrite Hstep by done. by rewrite Hidem.
Qed.

End TitleMore.

(** ** Beyond the claims, on the demo tool *)

Lemma Run_exit_status_demo :
  Run (built demo).1 (no_flags ["obj"]) (built demo).2 quiet_world =
    (Returned, (RunE (built demo).1 (registry_of demo) (no_flags ["obj"]) quiet_world).2).
Proof.
  apply (Run_exit_status (engine := Strict.engine) (built demo).1 (no_flags ["obj"])
           (built demo).2 (registered demo) (registry_of demo) quiet_world);
    reflexivity.
Defined.

Lemma Run_generates_quietly_demo :
  Run (built demo).1 (no_flags ["obj"]) (built demo).2 quiet_world =
    (Returned,
     called quiet_world [CallFromOptions ["obj"];
                         CallRun {| Strict.selected := [obj_generator] |}]).
Proof.
  apply (Run_generates_quietly (engine := Strict.engine) (built demo).1 (no_flags ["obj"])
           (built demo).2 (registered demo) (registry_of demo)
           {| Strict.selected := [obj_generator] |} quiet_world);
    try reflexivity.
  discriminate.
Defined.

Lemma option_errors_pass_through_demo :
  RunE (built demo).1 (registry_of demo) (no_flags ["nope"]) quiet_world =
    ((0, Some (Strict.unknown_option "nope")),
     called quiet_world [CallFromOptions ["nope"]]) ∧
  engine_calls (Run (built demo).1 (no_flags ["nope"]) (built demo).2 quiet_world).2 =
    ([] ++ [CallFromOptions ["nope"]])%list ∧
  exit_status (Run (built demo).1 (no_flags ["nope"]) (built demo).2 quiet_world).1 ≠ 0%Z.
Proof.
  apply (option_errors_pass_through (engine := Strict.engine) (built demo).1
           (no_flags ["nope"]) (built demo).2 (registered demo) (registry_of demo)
           quiet_world (Strict.unknown_option "nope"));
    reflexivity.
Defined.

Lemma usage_suppressed_exactly_demo :
  handle (built demo).1 (registry_of demo) (no_flags ["obj"])
    (0, Some (wrapError 4 "generation" (noUsageError None))) quiet_world =
    (Exited 1, wrote quiet_world [] [HintLine "demo" ["obj"]]).
Proof.
  apply (usage_suppressed_exactly (engine := Strict.engine) (built demo).1
           (registry_of demo) (no_flags ["obj"]) quiet_world
           (wrapError 4 "generation" (noUsageError None)));
    reflexivity.
Defined.

Lemma handle_broken_stderr_demo :
  handle (built demo).1 (registry_of demo) (no_flags []) 
    (0, Some (errorString 10 "no generators specified")) deaf_world =
    (Panicked (PanicError broken_pipe), deaf_world).
Proof.
  apply (handle_broken_stderr (engine := Strict.engine) (built demo).1
           (registry_of demo) (no_flags []) 0
           (errorString 10 "no generators specified") broken_pipe deaf_world);
    reflexivity.
Defined.

Lemma register_touches_only_its_registry_demo :
  gen_maps (registered demo) = gen_maps (built demo).2 ∧
  rule_maps (registered demo) = rule_maps (built demo).2 ∧
  (∀ q, q ≠ markerRegistry (built demo).1 →
     registries (registered demo) !! q = registries (built demo).2 !! q) ∧
  is_Some (registries (built demo).2 !! markerRegistry (built demo).1) ∧
  is_Some (registries (registered demo) !! markerRegistry (built demo).1).
Proof.
  apply (register_touches_only_its_registry (engine := Strict.engine) (built demo).1
           (built demo).2 (registered demo)).
  reflexivity.
Defined.

Lemma Run_without_registry_demo :
  Run zero_Cmd (no_flags ["obj"]) empty_heap quiet_world =
    (Panicked nil_dereference, quiet_world).
Proof.
  apply (Run_without_registry (engine := Strict.engine) zero_Cmd (no_flags ["obj"])
           empty_heap quiet_world);
    reflexivity.
Defined.

Lemma register_order_independent_demo :
  ∃ names,
    reg_names (markerRegistry (built demo).1) (registered demo) = Some names ∧
    reg_names (markerRegistry (built demo).1) (registered_backwards demo) = Some names.
Proof.
  apply (register_order_independent (engine := Strict.engine) enumeration_order
           reversed_order (built demo).1 (built demo).2);
    reflexivity.
Defined.

Lemma builder_steps_commute_demo :
  WithGenerator "a" obj_generator (WithGenerator "b" other_generator (New "demo")) empty_heap =
  WithGenerator "b" other_generator (WithGenerator "a" obj_generator (New "demo")) empty_heap.
Proof.
  apply (proj1 (builder_steps_commute (engine := Strict.engine) (New "demo") empty_heap)).
  discriminate.
Defined.

Lemma nil_maps_read_empty_demo :
  let b' := WithOutputRules nil_map (WithGenerators nil_map (New "demo")) in
  (∀ k g, WithGenerator k g b' empty_heap = Panic nil_map_write) ∧
  (∀ k r, WithOutputRule k r b' empty_heap = Panic nil_map_write) ∧
  ∃ c', b' empty_heap = Ok (c', (built (New "demo")).2) ∧
    markerRegistry c' = markerRegistry (built (New "demo")).1 ∧
    ∀ r0 h2,
      registries (built (New "demo")).2 !! markerRegistry (built (New "demo")).1 = Some r0 →
      register c' (built (New "demo")).2 = Ok (tt, h2) →
      reg_names (markerRegistry (built (New "demo")).1) h2 =
        Some (option_markers ∪ marker_names r0).
Proof.
  apply (nil_maps_read_empty (engine := Strict.engine) (New "demo") empty_heap
           (built (New "demo")).2 (built (New "demo")).1).
  reflexivity.
Defined.

Lemma Title_well_formed_demo :
  string_of_runes (runes "Hello") = "Hello" ∧ "Hello" ≠ "" ∧
  length (runes "Hello") = length (runes "hello").
Proof. apply (Title_well_formed ascii_only_upper "hello" "Hello"). reflexivity. Defined.

Lemma Title_ascii_demo :
  Title ascii_only_upper "hello" = Ok "Hello" ∧ Title ascii_only_upper "Hello" = Ok "Hello".
Proof.
  apply (Title_ascii ascii_only_upper "h" "ello").
  repeat constructor.
Defined.

Lemma builder_step_changes_one_field_demo :
  ∃ c h', New "demo" empty_heap = Ok (c, h') ∧
    let cfg := configuration c h' in
    (∀ d, ∃ c1, WithDescription d (New "demo") empty_heap = Ok (c1, h') ∧
       configuration c1 h' =
         {| cfg_name := cfg_name cfg; cfg_description := d; cfg_helper := cfg_helper cfg;
            cfg_generators := cfg_generators cfg; cfg_outputRules := cfg_outputRules cfg;
            cfg_registry := cfg_registry cfg |}) ∧
    (∀ x, ∃ c1, WithHelper x (New "demo") empty_heap = Ok (c1, h') ∧
       configuration c1 h' =
         {| cfg_name := cfg_name cfg; cfg_description := cfg_description cfg;
            cfg_helper := x;
            cfg_generators := cfg_generators cfg; cfg_outputRules := cfg_outputRules cfg;
            cfg_registry := cfg_registry cfg |}) ∧
    (∀ k v, ∃ h1, WithGenerator k v (New "demo") empty_heap = Ok (c, h1) ∧
       configuration c h1 =
         {| cfg_name := cfg_name cfg; cfg_description := cfg_description cfg;
            cfg_helper := cfg_helper cfg;
            cfg_generators := <[k := v]> (cfg_generators cfg);
            cfg_outputRules := cfg_outputRules cfg;
            cfg_registry := cfg_registry cfg |}) ∧
    (∀ k r, ∃ h1, WithOutputRule k r (New "demo") empty_heap = Ok (c, h1) ∧
       configuration c h1 =
         {| cfg_name := cfg_name cfg; cfg_description := cfg_description cfg;
            cfg_helper := cfg_helper cfg;
            cfg_generators := cfg_generators cfg;
            cfg_outputRules := <[k := r]> (cfg_outputRules cfg);
            cfg_registry := cfg_registry cfg |}).
Proof.
  apply (proj2 (builder_step_changes_one_field (engine := Strict.engine)) (New "demo")
           empty_heap).
  constructor.
Defined.
